(** * arduino-serial: the command shell of the serial transport

    A shallow embedding of [src/arduino-serial.c] (functions [usage],
    [error] and [main]).  The shell walks over the options [getopt_long]
    hands back, keeps a handful of local variables ([fd], [baudrate],
    [quiet], [eolchar], [timeout], [b], ...) and calls the serial library,
    libc and the terminal driver.

    The embedding keeps three things apart:
    - the shell state, a record of the locals of [main] that live across
      options;
    - the world, which holds what every outside routine will answer, in call
      order (the library [arduino-serial-lib.c] and libc are not part of the
      shell; the shell only looks at the values they hand back);
    - the trace, the sequence of outside calls the shell makes, each with
      its arguments and the answer it got. *)

From Stdlib Require Import ZArith List String Ascii Bool Lia.
Import ListNotations.
Open Scope string_scope.
Open Scope list_scope.
Open Scope Z_scope.

Set Implicit Arguments.

(** ** C data *)

Module C.

(** [int] and [short] on the usual two's complement targets: a value that
    does not fit wraps around. *)
Definition to_int (x : Z) : Z := (x + 2 ^ 31) mod 2 ^ 32 - 2 ^ 31.
Definition to_short (x : Z) : Z := (x + 2 ^ 15) mod 2 ^ 16 - 2 ^ 15.
Arguments to_int : simpl never.
Arguments to_short : simpl never.

Definition LONG_MAX : Z := 2 ^ 63 - 1.
Definition LONG_MIN : Z := - 2 ^ 63.

Definition EXIT_SUCCESS : Z := 0.
Definition EXIT_FAILURE : Z := 1.

(** [(uint8_t) n] *)
Definition to_uint8 (n : Z) : ascii := ascii_of_N (Z.to_N (n mod 256)).

(** the integer a [uint8_t] promotes to *)
Definition of_uint8 (c : ascii) : Z := Z.of_N (N_of_ascii c).

(** [s[0]] of a C string: its first character, or the terminating NUL
    when the string is empty. *)
Definition first_char (s : string) : ascii :=
  match s with
  | EmptyString => zero
  | String c _ => c
  end.

Definition newline : ascii := ascii_of_nat 10.
Definition nl : string := String newline EmptyString.
Definition dquote : string := String (ascii_of_nat 34) EmptyString.

(** *** [strtol(s, NULL, 10)]

    White space is skipped, one sign is accepted, then the longest run of
    decimal digits is converted; a value out of the range of [long]
    saturates. *)
Definition isspace (c : ascii) : bool :=
  let n := nat_of_ascii c in
  ((n =? 32) || ((9 <=? n) && (n <=? 13)))%nat.

Definition digit (c : ascii) : option Z :=
  let n := Z.of_nat (nat_of_ascii c) in
  if (48 <=? n) && (n <=? 57) then Some (n - 48) else None.

Fixpoint skip_space (s : string) : string :=
  match s with
  | String c r => if isspace c then skip_space r else s
  | EmptyString => s
  end.

Fixpoint digits (s : string) (acc : Z) : Z :=
  match s with
  | String c r =>
      match digit c with
      | Some d => digits r (acc * 10 + d)
      | None => acc
      end
  | EmptyString => acc
  end.

Definition saturate (v : Z) : Z := Z.max LONG_MIN (Z.min LONG_MAX v).

Definition strtol (s : string) : Z :=
  match skip_space s with
  | String "-" r => saturate (- digits r 0)
  | String "+" r => saturate (digits r 0)
  | r => saturate (digits r 0)
  end.

End C.

(** ** Options

    One value per result of [getopt_long] with the option string
    ["hp:b:s:S:iryFn:f:v:d:qe:t:"]; an option that takes an argument carries
    its [optarg].  [Other] stands for every code the [switch] has no case
    for (['?'], and ['0'], whose case is empty). *)
Inductive opt : Type :=
| Oq
| Oe (optarg : string)
| Ot (optarg : string)
| Od (optarg : string)
| Oh
| Ob (optarg : string)
| Op (optarg : string)
| On (optarg : string)
| Of (optarg : string)
| Ov (optarg : string)
| OS (optarg : string)
| Os (optarg : string)
| Oi
| Oy
| Or
| OF
| Other (code : ascii).

(** ** Trace *)

(** An argument of a [printf] call. [ADbl num den] is the [double] a
    quotient of two whole numbers converts to (the elapsed seconds and
    minutes of the file relay). *)
Inductive parg : Type :=
| AInt (z : Z)
| AChr (c : ascii)
| AStr (s : string)
| ADbl (num den : Z).

(** The answer of a byte read: the return code, and the byte stored through
    the pointer when the routine stored one. *)
Definition answer : Type := (Z * option ascii)%type.

Inductive event : Type :=
| Printf (fmt : string) (args : list parg)
| FprintfStderr (fmt : string) (args : list parg)
| Perror (msg : string)
| Usleep (usec : Z)
| Clock (now : Z)
| Fopen (path : string) (ok : bool)
| Fclose
| Open (path : string) (res : Z)
| Close (fd : Z)
| Fgets (line : option string)
| Tcdrain (fd : Z)
| SerialInit (port : string) (baud : Z) (res : Z)
| SerialClose (fd : Z)
| SerialFlush (fd : Z)
| SerialWriteByte (fd : Z) (b : ascii) (res : Z)
| SerialWrite (fd : Z) (str : string) (res : Z)
| SerialReadByte (fd : Z) (timeout : Z) (res : Z) (got : option ascii)
| SerialReadByteFile (timeout : Z) (res : Z) (got : option ascii)
| SerialReadUntil (fd : Z) (until : ascii) (buf_max : Z) (timeout : Z)
                  (got : string).

(** ** World

    What the outside will answer, one list per routine, in call order.  The
    serial library ([arduino-serial-lib.c]) and libc are not part of the
    shell, which only sees the values they hand back; any finite behaviour
    of theirs is a world.  A list that is used up stands for the quiet
    outcome of its routine: no further device can be opened, a write is
    accepted, nothing more arrives on the line, a file or the standard
    input is at its end. *)
Record world : Type := mkWorld {
  w_init : list Z;                          (* serialport_init *)
  w_writebyte : list Z;                     (* serialport_writebyte *)
  w_write : list Z;                         (* serialport_write *)
  w_read_byte : list answer;                (* serialport_read_byte *)
  w_read_until : list string;               (* buffer left by serialport_read_until *)
  w_fopen : list (option (list answer));    (* fopen: the reads of the file *)
  w_open : list Z;                          (* open *)
  w_stdin : list string;                    (* fgets on stdin *)
  w_time : list Z                           (* time *)
}.

Definition pop {A : Type} (d : A) (l : list A) : A * list A := (hd d l, tl l).

(** ** The shell monad: world passing, a trace, and [exit] *)

Inductive res (A : Type) : Type :=
| Ret (a : A)
| Exit (status : Z).
Arguments Exit {A} status.

Record out (A : Type) : Type := mkOut {
  trace : list event;
  final : world;
  value : res A
}.

Definition M (A : Type) : Type := world -> out A.

Definition ret {A : Type} (a : A) : M A :=
  fun w => mkOut [] w (Ret a).

Definition bind {A B : Type} (m : M A) (f : A -> M B) : M B :=
  fun w =>
    match m w with
    | mkOut t w' (Exit s) => mkOut t w' (Exit s)
    | mkOut t w' (Ret a) =>
        match f a w' with
        | mkOut t' w'' v => mkOut (t ++ t') w'' v
        end
    end.

Definition exit {A : Type} (status : Z) : M A :=
  fun w => mkOut [] w (Exit status).

Definition emit (e : event) : M unit :=
  fun w => mkOut [e] w (Ret tt).

Declare Scope shell_scope.
Delimit Scope shell_scope with shell.
Notation "x <- m ;; k" := (bind m (fun x => k))
  (at level 61, m at next level, right associativity) : shell_scope.
Notation "m ;; k" := (bind m (fun _ => k))
  (at level 61, right associativity) : shell_scope.
Notation "' p <- m ;; k" := (bind m (fun x => let 'p := x in k))
  (at level 61, p pattern, m at next level, right associativity) : shell_scope.
Open Scope shell_scope.

(** [if (c) m;] *)
Definition when (c : bool) (m : M unit) : M unit :=
  if c then m else ret tt.

Definition printf (fmt : string) (args : list parg) : M unit :=
  emit (Printf fmt args).

(** ** Outside routines

    The routines of the serial library and of libc the shell calls.  Each
    one takes its answer from the world and leaves its call, with its
    arguments and the answer, in the trace.  Where the shell drops the
    value a routine returns ([serialport_close], [serialport_flush],
    [serialport_read_until], [tcdrain], ...) the routine returns nothing
    here. *)

Definition set_init (w : world) (l : list Z) : world :=
  mkWorld l (w_writebyte w) (w_write w) (w_read_byte w) (w_read_until w)
          (w_fopen w) (w_open w) (w_stdin w) (w_time w).
Definition set_writebyte (w : world) (l : list Z) : world :=
  mkWorld (w_init w) l (w_write w) (w_read_byte w) (w_read_until w)
          (w_fopen w) (w_open w) (w_stdin w) (w_time w).
Definition set_write (w : world) (l : list Z) : world :=
  mkWorld (w_init w) (w_writebyte w) l (w_read_byte w) (w_read_until w)
          (w_fopen w) (w_open w) (w_stdin w) (w_time w).
Definition set_read_byte (w : world) (l : list answer) : world :=
  mkWorld (w_init w) (w_writebyte w) (w_write w) l (w_read_until w)
          (w_fopen w) (w_open w) (w_stdin w) (w_time w).
Definition set_read_until (w : world) (l : list string) : world :=
  mkWorld (w_init w) (w_writebyte w) (w_write w) (w_read_byte w) l
          (w_fopen w) (w_open w) (w_stdin w) (w_time w).
Definition set_fopen (w : world) (l : list (option (list answer))) : world :=
  mkWorld (w_init w) (w_writebyte w) (w_write w) (w_read_byte w)
          (w_read_until w) l (w_open w) (w_stdin w) (w_time w).
Definition set_open (w : world) (l : list Z) : world :=
  mkWorld (w_init w) (w_writebyte w) (w_write w) (w_read_byte w)
          (w_read_until w) (w_fopen w) l (w_stdin w) (w_time w).
Definition set_stdin (w : world) (l : list string) : world :=
  mkWorld (w_init w) (w_writebyte w) (w_write w) (w_read_byte w)
          (w_read_until w) (w_fopen w) (w_open w) l (w_time w).
Definition set_time (w : world) (l : list Z) : world :=
  mkWorld (w_init w) (w_writebyte w) (w_write w) (w_read_byte w)
          (w_read_until w) (w_fopen w) (w_open w) (w_stdin w) l.

(** What a pointer argument holds after a read that may have stored a
    byte through it. *)
Definition stored (got : option ascii) (old : ascii) : ascii :=
  match got with
  | Some c => c
  | None => old
  end.

(** Modelled from the spec: [serialport_read_byte] of the library, whose
    source is not with the shell.  The specification has a byte read end
    as data-available with exactly one byte, as timed-out "with zero bytes
    transferred", or as an error, and the shell takes every code [rc <= 0]
    for "no input".  [timed_out] is the answer of a read on which nothing
    arrived: the code 0 and no byte stored. *)
Definition timed_out : answer := (0, None).

(** Modelled from the spec: [serialport_read_byte_file] of the library,
    whose source is not with the shell.  The specification has it classify
    each read as data, timeout/error or end-of-file, "return code 2 means
    EOF", which is the code the shell tests ([rc == 2]).  [end_of_file] is
    the answer of a read past the last byte: the code 2 and no byte
    stored. *)
Definition end_of_file : answer := (2, None).

Module Lib.

Definition serialport_init (port : string) (baud : Z) : M Z :=
  fun w =>
    let (r, rest) := pop (-1) (w_init w) in
    mkOut [SerialInit port baud r] (set_init w rest) (Ret r).

Definition serialport_close (fd : Z) : M unit := emit (SerialClose fd).

Definition serialport_flush (fd : Z) : M unit := emit (SerialFlush fd).

Definition serialport_writebyte (fd : Z) (b : ascii) : M Z :=
  fun w =>
    let (r, rest) := pop 0 (w_writebyte w) in
    mkOut [SerialWriteByte fd b r] (set_writebyte w rest) (Ret r).

Definition serialport_write (fd : Z) (str : string) : M Z :=
  fun w =>
    let (r, rest) := pop 0 (w_write w) in
    mkOut [SerialWrite fd str r] (set_write w rest) (Ret r).

(** [serialport_read_byte(fd, &b, timeout)]: the return code and what
    [b] holds afterwards. *)
Definition serialport_read_byte (fd : Z) (b : ascii) (timeout : Z)
  : M (Z * ascii) :=
  fun w =>
    let (a, rest) := pop timed_out (w_read_byte w) in
    mkOut [SerialReadByte fd timeout (fst a) (snd a)]
          (set_read_byte w rest) (Ret (fst a, stored (snd a) b)).

(** [serialport_read_byte_file(ifile, &b, timeout)], at a position of
    the file where the reader answers [a]. *)
Definition serialport_read_byte_file (a : answer) (b : ascii) (timeout : Z)
  : M (Z * ascii) :=
  emit (SerialReadByteFile timeout (fst a) (snd a)) ;;
  ret (fst a, stored (snd a) b).

(** [serialport_read_until(fd, buf, until, buf_max, timeout)] on a
    zeroed [buf]: the string [buf] holds afterwards. *)
Definition serialport_read_until (fd : Z) (until : ascii) (buf_max : Z)
           (timeout : Z) : M string :=
  fun w =>
    let (s, rest) := pop "" (w_read_until w) in
    mkOut [SerialReadUntil fd until buf_max timeout s]
          (set_read_until w rest) (Ret s).

Definition tcdrain (fd : Z) : M unit := emit (Tcdrain fd).

Definition fopen (path : string) : M (option (list answer)) :=
  fun w =>
    let (f, rest) := pop None (w_fopen w) in
    mkOut [Fopen path (match f with Some _ => true | None => false end)]
          (set_fopen w rest) (Ret f).

Definition fclose : M unit := emit Fclose.

Definition open (path : string) : M Z :=
  fun w =>
    let (r, rest) := pop (-1) (w_open w) in
    mkOut [Open path r] (set_open w rest) (Ret r).

Definition close (fd : Z) : M unit := emit (Close fd).

Definition time : M Z :=
  fun w =>
    let (t, rest) := pop 0 (w_time w) in
    mkOut [Clock t] (set_time w rest) (Ret t).

Definition usleep (usec : Z) : M unit := emit (Usleep usec).

Definition perror (msg : string) : M unit := emit (Perror msg).

End Lib.
Import Lib.

(** ** The shell *)

(** The locals of [main] whose value is carried from one option to the
    next.  [buf], [rc] and [n] are written before they are read inside every
    case and stay local to it. *)
Record state : Type := mkState {
  fd : Z;
  serialport : string;
  baudrate : Z;
  quiet : bool;
  eolchar : ascii;
  timeout : Z;
  b : ascii
}.

Definition set_fd (st : state) (v : Z) : state :=
  mkState v (serialport st) (baudrate st) (quiet st) (eolchar st) (timeout st)
          (b st).
Definition set_serialport (st : state) (port : string) : state :=
  mkState (fd st) port (baudrate st) (quiet st) (eolchar st) (timeout st) (b st).
Definition set_baudrate (st : state) (v : Z) : state :=
  mkState (fd st) (serialport st) v (quiet st) (eolchar st) (timeout st) (b st).
Definition set_quiet (st : state) (v : bool) : state :=
  mkState (fd st) (serialport st) (baudrate st) v (eolchar st) (timeout st) (b st).
Definition set_eolchar (st : state) (v : ascii) : state :=
  mkState (fd st) (serialport st) (baudrate st) (quiet st) v (timeout st) (b st).
Definition set_timeout (st : state) (v : Z) : state :=
  mkState (fd st) (serialport st) (baudrate st) (quiet st) (eolchar st) v (b st).
Definition set_b (st : state) (v : ascii) : state :=
  mkState (fd st) (serialport st) (baudrate st) (quiet st) (eolchar st)
          (timeout st) v.

Definition buf_max : Z := 256.

(** The locals at the top of [main].  [b] is declared without a value and
    starts with whatever the stack holds, here [junk]; so does [serialport],
    which is read only after [-p] has copied a name into it. *)
Definition initial (junk : ascii) : state :=
  mkState (-1) "" 9600 false C.newline 5000 junk.

Definition usage_text : string :=
  ("Usage: arduino-serial -b <bps> -p <serialport> [OPTIONS]" ++ C.nl ++
   C.nl ++
   "Options:" ++ C.nl ++
   "  -h, --help                 Print this help message" ++ C.nl ++
   "  -b, --baud=baudrate        Baudrate (bps) of Arduino (default 9600)" ++ C.nl ++
   "  -p, --port=serialport      Serial port Arduino is connected to" ++ C.nl ++
   "  -s, --send=string          Send string to Arduino" ++ C.nl ++
   "  -S, --sendline=string      Send string with newline to Arduino" ++ C.nl ++
   "  -i  --stdinput             Use standard input" ++ C.nl ++
   "  -y, --byte                 Receive single byte from Arduino & print it out" ++ C.nl ++
   "  -r, --receive              Receive string from Arduino & print it out" ++ C.nl ++
   "  -n  --num=num              Send a number as a single byte" ++ C.nl ++
   "  -f  --input=ifile          Send file as input" ++ C.nl ++
   "  -v  --output=ofile         Save output to file" ++ C.nl ++
   "  -F  --flush                Flush serial port buffers for fresh reading" ++ C.nl ++
   "  -d  --delay=millis         Delay for specified milliseconds" ++ C.nl ++
   "  -e  --eolchar=char         Specify EOL char for reads (default '\n')" ++ C.nl ++
   "  -t  --timeout=millis       Timeout for reads in millisecs (default 5000)" ++ C.nl ++
   "  -q  --quiet                Don't print out as much info" ++ C.nl ++
   C.nl ++
   "Note: Order is important. Set '-b' baudrate before opening port'-p'. " ++ C.nl ++
   "      Used to make series of actions: '-d 2000 -s hello -d 100 -r' " ++ C.nl ++
   "      means 'wait 2secs, send 'hello', wait 100msec, get reply'" ++ C.nl ++
   C.nl)%string.

Definition usage : M unit :=
  printf usage_text [] ;;
  exit C.EXIT_SUCCESS.

Definition error (msg : string) : M unit :=
  emit (FprintfStderr ("%s" ++ C.nl)%string [AStr msg]) ;;
  exit C.EXIT_FAILURE.

Definition not_opened : string := "serial port not opened".

(** [tcdrain(fd); tcdrain(1);] when the counter is a multiple of 60 *)
Definition pace (a : Z) (fd : Z) : M unit :=
  when (Z.rem a 60 =? 0) (tcdrain fd ;; tcdrain 1).

(** *** The file relay of [-f]

    One turn of the [do ... while (rc == 0)] loop, at a position of the file
    where the reader answers [ans]; [again] is the next turn. *)
Definition stream_body (ans : answer) (fd : Z) (b : ascii) (a : Z)
           (again : ascii -> Z -> M (ascii * Z)) : M (ascii * Z) :=
  '(rc, b) <- serialport_read_byte_file ans b 10000 ;;
  printf "%c" [AChr b] ;;
  if rc <? 0 then
    printf ("input loop broke unexpectedly %d" ++ C.nl)%string [AInt rc] ;;
    ret (b, a)
  else if rc =? 2 then
    printf ("end of file reached" ++ C.nl)%string [] ;;
    serialport_flush fd ;;
    ret (b, a)
  else
    rc <- serialport_writebyte fd b ;;
    pace a fd ;;
    let a := C.to_short (a + 1) in
    if rc =? 0 then again b a else ret (b, a).

(** The loop over the file [ifile], given by the answers of its successive
    reads; past the last one the reader is at the end of the file. *)
Fixpoint stream_loop (ifile : list answer) (fd : Z) (b : ascii) (a : Z)
  : M (ascii * Z) :=
  match ifile with
  | [] => stream_body end_of_file fd b a (fun b a => ret (b, a))
  | ans :: rest => stream_body ans fd b a (stream_loop rest fd)
  end.

(** *** The capture loop of [-v]

    One turn of [while (rc <= 0)], entered with the condition true. *)
Definition save_body (fd ofile : Z) (b : ascii) (a : Z)
           (again : ascii -> Z -> M ascii) : M ascii :=
  '(rc, b) <- serialport_read_byte fd b 5000 ;;
  if rc <=? 0 then
    tcdrain ofile ;;
    ret b
  else
    rc <- serialport_writebyte ofile b ;;
    printf "%c" [AChr b] ;;
    pace a ofile ;;
    let a := C.to_short (a + 1) in
    if rc <=? 0 then again b a else ret b.

(** The loop makes one read per turn, so it takes at most one turn more
    than there are answers left on the line ([line]); the turn after the
    last answer reads a time-out and leaves. *)
Fixpoint save_loop (line : list answer) (fd ofile : Z) (b : ascii) (a : Z)
  : M ascii :=
  match line with
  | [] => save_body fd ofile b a (fun b _ => ret b)
  | _ :: rest => save_body fd ofile b a (save_loop rest fd ofile)
  end.

(** *** The loop of [-i] over the lines [fgets] returns *)
Fixpoint send_lines (lines : list string) (fd : Z) (quiet : bool) (rc : Z)
  : M Z :=
  match lines with
  | [] => emit (Fgets None) ;; ret rc
  | buf :: rest =>
      emit (Fgets (Some buf)) ;;
      when (negb quiet) (printf ("send string:%s" ++ C.nl)%string [AStr buf]) ;;
      rc <- serialport_write fd buf ;;
      send_lines rest fd quiet rc
  end.

(** *** One option: the body of the [switch]

    [strcpy] and [sprintf] are taken on arguments that fit their 256-byte
    buffers; the product [n * 1000] of [-d] wraps as an [int] does. *)
Definition step (st : state) (o : opt) : M state :=
  match o with
  | Other _ => ret st
  | Oq => ret (set_quiet st true)
  | Oe optarg =>
      let st := set_eolchar st (C.first_char optarg) in
      when (negb (quiet st))
           (printf ("eolchar set to '%c'" ++ C.nl)%string [AChr (eolchar st)]) ;;
      ret st
  | Ot optarg =>
      let st := set_timeout st (C.to_int (C.strtol optarg)) in
      when (negb (quiet st))
           (printf ("timeout set to %d millisecs" ++ C.nl)%string
                   [AInt (timeout st)]) ;;
      ret st
  | Od optarg =>
      let n := C.to_int (C.strtol optarg) in
      when (negb (quiet st))
           (printf ("sleep %d millisecs" ++ C.nl)%string [AInt n]) ;;
      usleep (C.to_int (n * 1000)) ;;
      ret st
  | Oh =>
      usage ;;
      ret st
  | Ob optarg => ret (set_baudrate st (C.to_int (C.strtol optarg)))
  | Op optarg =>
      when (negb (fd st =? -1))
           (serialport_close (fd st) ;;
            when (negb (quiet st))
                 (printf ("closed port %s" ++ C.nl)%string
                         [AStr (serialport st)])) ;;
      let st := set_serialport st optarg in
      r <- serialport_init optarg (baudrate st) ;;
      let st := set_fd st r in
      when (fd st =? -1) (error "couldn't open port") ;;
      when (negb (quiet st))
           (printf ("opened port %s" ++ C.nl)%string [AStr (serialport st)]) ;;
      serialport_flush (fd st) ;;
      ret st
  | On optarg =>
      when (fd st =? -1) (error not_opened) ;;
      let n := C.to_int (C.strtol optarg) in
      rc <- serialport_writebyte (fd st) (C.to_uint8 n) ;;
      when (rc =? -1) (error "error writing") ;;
      ret st
  | Of optarg =>
      start <- time ;;
      when (fd st =? -1) (error not_opened) ;;
      ifile <- fopen optarg ;;
      match ifile with
      | None =>
          perror "error opening input file" ;;
          ret st
      | Some ifile =>
          when (negb (quiet st))
               (printf ("opened file " ++ C.dquote ++ "%s" ++ C.dquote ++ C.nl)%string
                       [AStr optarg]) ;;
          serialport_flush (fd st) ;;
          '(b, a) <- stream_loop ifile (fd st) (b st) 0 ;;
          printf C.nl [] ;;
          end_ <- time ;;
          when (negb (quiet st))
               (printf ("completed file read/input (%d bytes) (%.2f minutes OR %.2f seconds)" ++ C.nl)%string
                       [AInt a; ADbl (end_ - start) 60; ADbl (end_ - start) 1]) ;;
          fclose ;;
          ret (set_b st b)
      end
  | Ov optarg =>
      when (fd st =? -1) (error not_opened) ;;
      ofile <- open optarg ;;
      if ofile <? 0 then
        perror "error opening output file" ;;
        ret st
      else
        when (negb (quiet st))
             (printf ("opened file " ++ C.dquote ++ "%s" ++ C.dquote ++ C.nl)%string
                     [AStr optarg]) ;;
        when (negb (quiet st))
             (printf (String (ascii_of_nat 9) "warning: 5 seconds to send file!" ++ C.nl)%string
                     []) ;;
        '(rc, b) <- serialport_read_byte (fd st) (b st) 5000 ;;
        if rc <=? 0 then
          printf ("error: no input found." ++ C.nl)%string [] ;;
          close ofile ;;
          ret (set_b st b)
        else
          printf ("found input." ++ C.nl)%string [] ;;
          rc <- serialport_writebyte ofile b ;;
          tcdrain ofile ;;
          b <- (if rc <=? 0
                then fun w => save_loop (w_read_byte w) (fd st) ofile b 1 w
                else ret b) ;;
          when (negb (quiet st))
               (printf ("completed file save" ++ C.nl)%string []) ;;
          close ofile ;;
          ret (set_b st b)
  | OS optarg =>
      when (fd st =? -1) (error not_opened) ;;
      let buf := (optarg ++ C.nl)%string in
      when (negb (quiet st))
           (printf ("send string:%s" ++ C.nl)%string [AStr buf]) ;;
      rc <- serialport_write (fd st) buf ;;
      when (rc =? -1) (error "error writing") ;;
      ret st
  | Os optarg =>
      when (fd st =? -1) (error not_opened) ;;
      let buf := optarg in
      when (negb (quiet st))
           (printf ("send string:%s" ++ C.nl)%string [AStr buf]) ;;
      rc <- serialport_write (fd st) buf ;;
      when (rc =? -1) (error "error writing") ;;
      ret st
  | Oi =>
      when (fd st =? -1) (error not_opened) ;;
      rc <- (fun w => send_lines (w_stdin w) (fd st) (quiet st) (-1)
                                 (set_stdin w [])) ;;
      when (rc =? -1) (error "error writing") ;;
      ret st
  | Oy =>
      when (fd st =? -1) (error not_opened) ;;
      '(_, buf0) <- serialport_read_byte (fd st) zero (timeout st) ;;
      when (negb (quiet st)) (printf "read byte:" []) ;;
      printf ("0x%02x" ++ C.nl)%string [AInt (C.of_uint8 buf0)] ;;
      ret st
  | Or =>
      when (fd st =? -1) (error not_opened) ;;
      buf <- serialport_read_until (fd st) (eolchar st) buf_max (timeout st) ;;
      when (negb (quiet st)) (printf "read string:" []) ;;
      printf ("%s" ++ C.nl)%string [AStr buf] ;;
      ret st
  | OF =>
      when (fd st =? -1) (error not_opened) ;;
      when (negb (quiet st)) (printf ("flushing receive buffer" ++ C.nl)%string []) ;;
      serialport_flush (fd st) ;;
      ret st
  end.

(** The [while (1)] loop over the options [getopt_long] returns, until it
    returns -1. *)
Fixpoint getopt_loop (opts : list opt) (st : state) : M state :=
  match opts with
  | [] => ret st
  | o :: rest =>
      st <- step st o ;;
      getopt_loop rest st
  end.

Definition main (argc : Z) (opts : list opt) (junk : ascii) : M unit :=
  when (argc =? 1) usage ;;
  _ <- getopt_loop opts (initial junk) ;;
  exit C.EXIT_SUCCESS.

(** The status the process ends with. [main] always leaves through
    [exit]; a [Ret] cannot come out of it. *)
Definition status {A : Type} (o : out A) : option Z :=
  match value o with
  | Exit s => Some s
  | Ret _ => None
  end.

(** * The vocabulary of the properties

    Functions that read a trace, the relay and the handle protocol in the
    words of the specification, and a few small worlds to run the shell
    in. *)

(** ** Reading a run *)

(** What the user sees: the text written to the console. *)
Definition shown (e : event) : bool :=
  match e with
  | Printf _ _ | FprintfStderr _ _ | Perror _ => true
  | _ => false
  end.

Definition observable (tr : list event) : list event := filter shown tr.

(** The time-outs the read routines were called with, in call order. *)
Definition read_timeouts (tr : list event) : list Z :=
  flat_map (fun e =>
              match e with
              | SerialReadByte _ t _ _ => [t]
              | SerialReadUntil _ _ _ t _ => [t]
              | _ => []
              end) tr.

(** The sentinels the line reads were called with, in call order. *)
Definition sentinels (tr : list event) : list ascii :=
  flat_map (fun e =>
              match e with
              | SerialReadUntil _ until _ _ _ => [until]
              | _ => []
              end) tr.

(** The options that work on the port. *)
Definition needs_port (o : opt) : bool :=
  match o with
  | On _ | Of _ | Ov _ | OS _ | Os _ | Oi | Oy | Or | OF => true
  | _ => false
  end.

(** The exit table of the shell: the status an option ends the process
    with, [None] when the shell goes on to the next option.  [-h] leaves
    with 0; an option that works on the port leaves with 1 when no port is
    open; [-p] leaves with 1 when the open fails; [-n], [-s] and [-S] leave
    with 1 when their write answers -1.  For [-i] the table speaks of the
    closed port only. *)
Definition step_status (st : state) (o : opt) (w : world) : option Z :=
  match o with
  | Oh => Some 0
  | Op _ => if hd (-1) (w_init w) =? -1 then Some 1 else None
  | On _ =>
      if fd st =? -1 then Some 1
      else if hd 0 (w_writebyte w) =? -1 then Some 1 else None
  | Os _ | OS _ =>
      if fd st =? -1 then Some 1
      else if hd 0 (w_write w) =? -1 then Some 1 else None
  | _ => if needs_port o && (fd st =? -1) then Some 1 else None
  end.

(** The status of the first option that leaves, 0 when none does. *)
Fixpoint loop_status (opts : list opt) (st : state) (w : world) : Z :=
  match opts with
  | [] => 0
  | o :: rest =>
      match step st o w with
      | mkOut _ _ (Exit s) => s
      | mkOut _ w' (Ret st') => loop_status rest st' w'
      end
  end.

(** The calls made before the first [serialport_init]. *)
Fixpoint before_init (tr : list event) : list event :=
  match tr with
  | [] => []
  | SerialInit _ _ _ :: _ => []
  | e :: rest => e :: before_init rest
  end.

(** ** The file relay of [-f] *)

Module Relay.

(** *** Reading the trace of the relay *)

Definition is_file_read (e : event) : bool :=
  match e with
  | SerialReadByteFile _ _ _ => true
  | _ => false
  end.

Definition is_eof_read (e : event) : bool :=
  match e with
  | SerialReadByteFile _ rc _ => rc =? 2
  | _ => false
  end.

Definition is_failed_read (e : event) : bool :=
  match e with
  | SerialReadByteFile _ rc _ => rc <? 0
  | _ => false
  end.

Definition is_write (e : event) : bool :=
  match e with
  | SerialWriteByte _ _ _ => true
  | _ => false
  end.

Definition echo (c : ascii) : event := Printf "%c" [AChr c].

Definition eof_report : event :=
  Printf ("end of file reached" ++ C.nl)%string [].

Definition failure_report (rc : Z) : event :=
  Printf ("input loop broke unexpectedly %d" ++ C.nl)%string [AInt rc].

Definition is_eof_report (e : event) : bool :=
  match e with
  | Printf fmt [] => String.eqb fmt ("end of file reached" ++ C.nl)%string
  | _ => false
  end.

(** The bytes written to the port [fd], in order. *)
Definition written (fd : Z) (tr : list event) : list ascii :=
  flat_map (fun e =>
              match e with
              | SerialWriteByte h c _ => if h =? fd then [c] else []
              | _ => []
              end) tr.

(** The bytes echoed on the console, in order. *)
Definition echoed (tr : list event) : list ascii :=
  flat_map (fun e =>
              match e with
              | Printf fmt [AChr c] => if String.eqb fmt "%c" then [c] else []
              | _ => []
              end) tr.

(** The trace from the first event that satisfies [p] on. *)
Fixpoint from (p : event -> bool) (tr : list event) : list event :=
  match tr with
  | [] => []
  | e :: rest => if p e then tr else from p rest
  end.

(** Every read of the file is followed at once by an echo; [pending]
    tells that a read has just been made. *)
Fixpoint echo_follows_read (pending : bool) (tr : list event) : bool :=
  match tr with
  | [] => negb pending
  | e :: rest =>
      if pending
      then match e with
           | Printf fmt [AChr _] =>
               String.eqb fmt "%c" && echo_follows_read false rest
           | _ => false
           end
      else echo_follows_read (is_file_read e) rest
  end.

(** *** The relay in the words of the specification

    Each data byte goes to the writer; when the number [k] of bytes sent
    before it is due, both the serial handle and the console are drained;
    at the end of the file the handle is flushed once more. *)
Definition turn (fd : Z) (due : bool) (d : Z * ascii) : list event :=
  [SerialReadByteFile 10000 (fst d) (Some (snd d)); echo (snd d);
   SerialWriteByte fd (snd d) 0]
  ++ (if due then [Tcdrain fd; Tcdrain 1] else []).

Definition at_end (fd : Z) (b : ascii) : list event :=
  [SerialReadByteFile 10000 2 None; echo b; eof_report; SerialFlush fd].

Fixpoint relay_events (fd : Z) (due : nat -> bool) (k : nat)
         (data : list (Z * ascii)) (b : ascii) : list event :=
  match data with
  | [] => at_end fd b
  | d :: rest => turn fd (due k) d ++ relay_events fd due (S k) rest (snd d)
  end.


(** The same test on the counter of the shell, a [short]. *)
Definition counter (k : nat) : Z := C.to_short (Z.of_nat k).

Definition drain_due (k : nat) : bool := Z.rem (counter k) 60 =? 0.

(** The answers of a file whose reads all deliver a byte, each with its
    return code. *)
Definition data_answers (data : list (Z * ascii)) : list answer :=
  map (fun d => (fst d, Some (snd d))) data.

(** A return code that is neither a failure nor the end of the file. *)
Definition is_data (rc : Z) : Prop := 0 <= rc /\ rc <> 2.

(** What the shell does around the loop. *)
Definition prologue (st : state) (path : string) (t0 : Z) : list event :=
  [Clock t0; Fopen path true]
  ++ (if quiet st then []
      else [Printf ("opened file " ++ C.dquote ++ "%s" ++ C.dquote ++ C.nl)%string
                   [AStr path]])
  ++ [SerialFlush (fd st)].

Definition epilogue (st : state) (a t0 t1 : Z) : list event :=
  [Printf C.nl []; Clock t1]
  ++ (if quiet st then []
      else [Printf ("completed file read/input (%d bytes) (%.2f minutes OR %.2f seconds)" ++ C.nl)%string
                   [AInt a; ADbl (t1 - t0) 60; ADbl (t1 - t0) 1]])
  ++ [Fclose].

(** The world the loop starts in: [time] and [fopen] have answered. *)
Definition at_loop (w : world) : world :=
  set_fopen (set_time w (tl (w_time w))) (tl (w_fopen w)).

Definition count_of (o : out (ascii * Z)) : Z :=
  match value o with
  | Ret (_, a) => a
  | Exit _ => 0
  end.

End Relay.
Import Relay.

(** ** The serial handle across a run *)

Module Handle.

(** What the trace so far says of the serial port: nothing is open; a
    device has just been opened as [h] and has not been flushed yet; the
    device [h] is open and has been flushed. *)
Inductive port : Type :=
| NoPort
| Fresh (h : Z)
| Ready (h : Z).

(** The port, and the descriptor of the capture file while [-v] has one
    open. *)
Definition session : Type := (port * option Z)%type.

Definition names (p : port) (h : Z) : bool :=
  match p with
  | Ready h' => h =? h'
  | _ => false
  end.

Definition captures (cap : option Z) (h : Z) : bool :=
  match cap with
  | Some c => h =? c
  | None => false
  end.

(** One call.  Between a successful open and the flush of the new handle
    only console output may happen.  Otherwise a second open needs the
    first handle to be closed; reads, writes of strings, flushes and the
    close name the handle that is open and flushed; a byte write names
    that handle or the capture file; a drain names one of the two or the
    console (descriptor 1). *)
Definition port_step (s : session) (e : event) : option session :=
  match fst s with
  | Fresh h =>
      match e with
      | Printf _ _ => Some s
      | SerialFlush h' => if h' =? h then Some (Ready h, snd s) else None
      | _ => None
      end
  | p =>
      match e with
      | SerialInit _ _ r =>
          match p with
          | NoPort => Some (if r =? -1 then NoPort else Fresh r, snd s)
          | _ => None
          end
      | SerialClose h => if names p h then Some (NoPort, snd s) else None
      | SerialFlush h | SerialWrite h _ _ | SerialReadByte h _ _ _
      | SerialReadUntil h _ _ _ _ => if names p h then Some s else None
      | SerialWriteByte h _ _ =>
          if names p h || captures (snd s) h then Some s else None
      | Tcdrain h =>
          if names p h || captures (snd s) h || (h =? 1) then Some s else None
      | Open _ r => Some (p, if r <? 0 then None else Some r)
      | Close h => if captures (snd s) h then Some (p, None) else None
      | _ => Some s
      end
  end.

Fixpoint run_port (s : session) (tr : list event) : option session :=
  match tr with
  | [] => Some s
  | e :: rest =>
      match port_step s e with
      | Some s' => run_port s' rest
      | None => None
      end
  end.

(** The handles that are open after a trace, started with [l] open. *)
Fixpoint live (l : list Z) (tr : list event) : list Z :=
  match tr with
  | [] => l
  | SerialInit _ _ r :: rest => live (if r =? -1 then l else r :: l) rest
  | SerialClose h :: rest => live (remove Z.eq_dec h l) rest
  | _ :: rest => live l rest
  end.

Definition handles (p : port) : list Z :=
  match p with
  | NoPort => []
  | Fresh h | Ready h => [h]
  end.

(** What the shell state says of the port, between two options. *)
Definition session_of (st : state) : session :=
  (if fd st =? -1 then NoPort else Ready (fd st), None).

End Handle.
Import Handle.

(** ** Small worlds *)

(** A world in which the first device opens as descriptor 3 and nothing
    else happens. *)
Definition quiet_line : world := mkWorld [3] [] [] [] [] [] [] [] [].

(** A shell state with descriptor 3 open. *)
Definition opened : state :=
  mkState 3 "/dev/ttyUSB0" 9600 false C.newline 5000 zero.

(** Two worlds in which the device opens as descriptor 3 (and a capture
    file as 4): on the first the byte read times out and stores nothing, on
    the second it delivers the byte 0. *)
Definition line_silent : world :=
  mkWorld [3] [] [] [timed_out] [] [] [4] [] [].

Definition line_sends_nul : world :=
  mkWorld [3] [] [] [(1, Some zero)] [] [] [4] [] [].

(** A world in which the device opens, a one-byte file is there to relay,
    and the write of that byte to the port fails. *)
Definition port_rejects_byte : world :=
  mkWorld [3] [-1] [] [] [] [Some [(0, Some "A"%char)]] [] [] [].

(** A world behind an open port with a file of two bytes to relay. *)
Definition two_byte_file : world :=
  mkWorld [] [] [] [] [] [Some (data_answers [(0, "H"%char); (0, "i"%char)])]
          [] [] [].


(** A world behind an open port with a file whose second read fails. *)
Definition file_breaks : world :=
  mkWorld [] [] [] [] [] [Some [(0, Some "H"%char); (-1, None)]] [] [] [].

(** A world behind an open port with an empty file to relay. *)
Definition empty_file : world :=
  mkWorld [] [] [] [] [] [Some []] [] [] [].

(** A world behind an open port in which the next device opens as
    descriptor 4. *)
Definition second_port : world := mkWorld [4] [] [] [] [] [] [] [] [].

(** ** More ways to read a run *)







(** The strings handed to [serialport_write] on the port [fd], in order. *)
Definition sent_strings (fd : Z) (tr : list event) : list string :=
  flat_map (fun e =>
              match e with
              | SerialWrite h str _ => if h =? fd then [str] else []
              | _ => []
              end) tr.

(** The answers the next [n] calls of a routine get, for a routine whose
    used-up list answers 0. *)
Fixpoint first_answers (n : nat) (l : list Z) : list Z :=
  match n with
  | O => []
  | S n' => hd 0 l :: first_answers n' (tl l)
  end.

(** The options whose only console output is a notice that [-q] turns
    off. *)
Definition only_notices (o : opt) : bool :=
  match o with
  | Oq | Oe _ | Ot _ | Od _ | Ob _ | Op _ | On _ | OS _ | Os _ | Oi | OF
  | Other _ => true
  | _ => false
  end.

(** A world behind an open port with three lines on the standard input,
    the first of which the port refuses. *)
Definition three_lines : world :=
  mkWorld [] [] [-1; 0; 0] [] [] [] [] ["one"; "two"; "three"] [].

(** A world behind an open port on which three bytes arrive, with a
    capture file that opens as descriptor 4 and refuses the second byte. *)
Definition three_bytes_arrive : world :=
  mkWorld [] [0; -1; 0] []
          (data_answers [(1, "a"%char); (1, "b"%char); (1, "c"%char)])
          [] [] [4] [] [].

(** The sleeps of a run, in microseconds, in order. *)
Definition slept (tr : list event) : list Z :=
  flat_map (fun e =>
              match e with
              | Usleep usec => [usec]
              | _ => []
              end) tr.

(** The largest delay, in milliseconds, whose microseconds fit an
    [int]. *)
Definition longest_delay : Z := 2147483.

(** A world behind an open port with a file of three bytes to relay, to a
    port that refuses the second. *)
Definition port_refuses_second : world :=
  mkWorld [] [0; -1; 0] [] [] []
          [Some (data_answers [(0, "a"%char); (0, "b"%char); (0, "c"%char)])]
          [] [] [].

(** ** The files of a run *)

Module Files.

(** What the trace so far says of the files of [-f] and [-v]: none is
    open, the input file is open, or the capture file is open as [h]. *)
Inductive held : Type :=
| NoFile
| Input
| Capture (h : Z).

(** One call.  A file is opened only while none is open; the input file
    is read and closed only while it is open; the capture file is closed
    only while it is open, by the descriptor it was opened as. *)
Definition file_step (s : held) (e : event) : option held :=
  match e with
  | Fopen _ ok =>
      match s with
      | NoFile => Some (if ok then Input else NoFile)
      | _ => None
      end
  | SerialReadByteFile _ _ _ =>
      match s with
      | Input => Some Input
      | _ => None
      end
  | Fclose =>
      match s with
      | Input => Some NoFile
      | _ => None
      end
  | Open _ h =>
      match s with
      | NoFile => Some (if h <? 0 then NoFile else Capture h)
      | _ => None
      end
  | Close h =>
      match s with
      | Capture h' => if h =? h' then Some NoFile else None
      | _ => None
      end
  | _ => Some s
  end.

Fixpoint run_files (s : held) (tr : list event) : option held :=
  match tr with
  | [] => Some s
  | e :: rest =>
      match file_step s e with
      | Some s' => run_files s' rest
      | None => None
      end
  end.

End Files.
Import Files.

(** ** The port at the exit *)

(** The descriptors [serialport_init] answered for the ports it opened, in
    order. *)
Definition opened_ports (tr : list event) : list Z :=
  flat_map (fun e =>
              match e with
              | SerialInit _ _ r => if r =? -1 then [] else [r]
              | _ => []
              end) tr.

(** The last of a list, if there is one. *)
Definition kept (l : list Z) : list Z :=
  match l with
  | [] => []
  | x :: l' => [last l' x]
  end.

(** The handle the shell holds between two options. *)
Definition held_port (st : state) : list Z := handles (fst (session_of st)).

(** * Properties *)

(** ** The monad *)

Lemma value_bind {A B : Type} (m : M A) (f : A -> M B) (w : world) :
  value (bind m f w) =
  match value (m w) with
  | Exit s => Exit s
  | Ret a => value (f a (final (m w)))
  end.
Proof.
  unfold bind. destruct (m w) as [t w' [a|s]]; simpl; [|reflexivity].
  destruct (f a w'); reflexivity.
Qed.

Lemma trace_bind {A B : Type} (m : M A) (f : A -> M B) (w : world) :
  trace (bind m f w) =
  match value (m w) with
  | Exit _ => trace (m w)
  | Ret a => trace (m w) ++ trace (f a (final (m w)))
  end.
Proof.
  unfold bind. destruct (m w) as [t w' [a|s]]; simpl; [|reflexivity].
  destruct (f a w'); reflexivity.
Qed.

Lemma status_bind {A B : Type} (m : M A) (f : A -> M B) (w : world) :
  status (bind m f w) =
  match value (m w) with
  | Exit s => Some s
  | Ret a => status (f a (final (m w)))
  end.
Proof.
  unfold status. rewrite value_bind. destruct (value (m w)); reflexivity.
Qed.

(** Unfolds the straight-line part of the shell. *)
Ltac shell :=
  unfold step, usage, error, pace, when, printf, emit, ret, exit, bind,
    serialport_init, serialport_close, serialport_flush, serialport_writebyte,
    serialport_write, serialport_read_byte, serialport_read_byte_file,
    serialport_read_until, tcdrain, fopen, fclose, open, close, time, usleep,
    perror, status, pop; simpl.

(** Decides the tests the goal is waiting for, one after the other. *)
Ltac tests :=
  repeat match goal with
         | |- context [if ?c then _ else _] => destruct c eqn:?; simpl
         end.

(** Names the outcome of a loop call the goal is waiting for. *)
Ltac run_loop IH :=
  match goal with
  | |- context [stream_loop ?f ?d ?b ?a ?w] =>
      let H := fresh "Hloop" in
      pose proof (IH b a w) as H;
      destruct (stream_loop f d b a w) as [? ? [[? ?]|?]]; simpl in H |- *
  | |- context [save_loop ?f ?d ?o ?b ?a ?w] =>
      let H := fresh "Hloop" in
      pose proof (IH b a w) as H;
      destruct (save_loop f d o b a w) as [? ? [?|?]]; simpl in H |- *
  | |- context [send_lines ?f ?d ?q ?rc ?w] =>
      let H := fresh "Hloop" in
      pose proof (IH rc w) as H;
      destruct (send_lines f d q rc w) as [? ? [?|?]]; simpl in H |- *
  end.

(** *** The loops always come back to the [switch] *)

Lemma stream_loop_returns (ifile : list answer) (fd : Z) (b : ascii) (a : Z)
      (w : world) :
  exists r, value (stream_loop ifile fd b a w) = Ret r.
Proof.
  revert b a w.
  induction ifile as [|[rc got] rest IH]; intros b a w; simpl;
    unfold stream_body, end_of_file; shell; [eauto|].
  tests; eauto; run_loop IH; eauto.
Qed.

Lemma save_loop_returns (line : list answer) (fd ofile : Z) (b : ascii)
      (a : Z) (w : world) :
  exists r, value (save_loop line fd ofile b a w) = Ret r.
Proof.
  revert b a w.
  induction line as [|x rest IH]; intros b a w; simpl; unfold save_body; shell;
    tests; eauto; run_loop IH; eauto.
Qed.

Lemma send_lines_returns (lines : list string) (fd : Z) (q : bool) (rc : Z)
      (w : world) :
  exists r, value (send_lines lines fd q rc w) = Ret r.
Proof.
  revert rc w.
  induction lines as [|buf rest IH]; intros rc w; simpl; shell; [eauto|].
  destruct q; simpl; run_loop IH; eauto.
Qed.

(** The capture loop is given as many turns as there are answers left on
    the line, and one more; it never needs another: turns added beyond
    them change nothing. *)
Lemma save_loop_turns_suffice (line extra : list answer) (fd ofile : Z)
      (b : ascii) (a : Z) (w : world) :
  w_read_byte w = line ->
  save_loop (line ++ extra) fd ofile b a w = save_loop line fd ofile b a w.
Proof.
  revert b a w.
  induction line as [|x rest IH]; intros b a w Hline.
  - destruct extra as [|y extra]; [reflexivity|].
    simpl. unfold save_body. shell. rewrite Hline. reflexivity.
  - simpl. unfold save_body. shell. rewrite Hline. simpl.
    tests; try reflexivity; rewrite IH by reflexivity; reflexivity.
Qed.

(** *** The calls the loops make

    Whatever holds of each call a loop can make holds of its whole trace. *)
Section LoopEvents.

Variable P : event -> Prop.

Lemma stream_loop_events (ifile : list answer) (fd : Z) (b : ascii) (a : Z)
      (w : world) :
  (forall rc got, P (SerialReadByteFile 10000 rc got)) ->
  (forall fmt args, P (Printf fmt args)) ->
  (forall c r, P (SerialWriteByte fd c r)) ->
  P (SerialFlush fd) -> P (Tcdrain fd) -> P (Tcdrain 1) ->
  Forall P (trace (stream_loop ifile fd b a w)).
Proof.
  intros Hread Hprint Hwrite Hflush Hdrain Hdrain1.
  revert b a w.
  induction ifile as [|[rc got] rest IH]; intros b a w; simpl;
    unfold stream_body, end_of_file; shell; [auto 10|].
  tests; auto 10; run_loop IH; auto 10.
Qed.

Lemma save_loop_events (line : list answer) (fd ofile : Z) (b : ascii)
      (a : Z) (w : world) :
  (forall rc got, P (SerialReadByte fd 5000 rc got)) ->
  (forall c, P (Printf "%c" [AChr c])) ->
  (forall c r, P (SerialWriteByte ofile c r)) ->
  P (Tcdrain ofile) -> P (Tcdrain 1) ->
  Forall P (trace (save_loop line fd ofile b a w)).
Proof.
  intros Hread Hprint Hwrite Hdrain Hdrain1.
  revert b a w.
  induction line as [|x rest IH]; intros b a w; simpl; unfold save_body;
    shell; tests; auto 10; run_loop IH; auto 10.
Qed.

Lemma send_lines_events (lines : list string) (fd : Z) (q : bool) (rc : Z)
      (w : world) :
  (forall line, P (Fgets line)) ->
  (forall fmt args, P (Printf fmt args)) ->
  (forall str r, P (SerialWrite fd str r)) ->
  Forall P (trace (send_lines lines fd q rc w)).
Proof.
  intros Hgets Hprint Hwrite.
  revert rc w.
  induction lines as [|buf rest IH]; intros rc w; simpl; shell; [auto|].
  destruct q; simpl; run_loop IH; auto 10.
Qed.

End LoopEvents.

(** ** C4: the read time-out *)

(** C4, as stated, at [-p /dev/ttyUSB0 -t -5 -y]: the byte read is called
    with the time-out -5, a negative value. *)
Lemma timeout_negative_reaches_read :
  ~ Forall (fun t => 0 <= t)
      (read_timeouts
         (trace (main 6 [Op "/dev/ttyUSB0"; Ot "-5"; Oy] zero quiet_line))).
Proof.
  intro H. vm_compute in H. inversion H as [|t l Ht Hl]; subst.
  apply Ht. reflexivity.
Qed.

(** C4, amended: the time-out starts at 5000; [-t] stores what [strtol]
    reads in its argument, converted to [int], the sign included; [-y] and
    [-r] hand the stored value to the read routine as it is. *)
Theorem timeout_default_and_passed_as_parsed
        (junk : ascii) (st : state) (optarg : string) (w : world)
        (Hfd : fd st <> -1) :
  timeout (initial junk) = 5000 /\
  value (step st (Ot optarg) w)
  = Ret (set_timeout st (C.to_int (C.strtol optarg))) /\
  read_timeouts (trace (step st Oy w)) = [timeout st] /\
  read_timeouts (trace (step st Or w)) = [timeout st] /\
  read_timeouts (trace (getopt_loop [Ot optarg; Oy] st w))
  = [C.to_int (C.strtol optarg)] /\
  read_timeouts (trace (getopt_loop [Ot optarg; Or] st w))
  = [C.to_int (C.strtol optarg)].
Proof.
  apply Z.eqb_neq in Hfd.
  destruct st as [f sp br q e t bb]; simpl in Hfd.
  repeat split; destruct q; simpl; shell; rewrite ?Hfd; reflexivity.
Qed.

Lemma timeout_default_and_passed_as_parsed_witness :
  fd opened <> -1 /\
  read_timeouts (trace (getopt_loop [Ot "-5"; Oy] opened quiet_line)) = [-5].
Proof.
  split.
  - discriminate.
  - apply (@timeout_default_and_passed_as_parsed zero opened "-5" quiet_line).
    discriminate.
Defined.

(** ** C8: the end-of-line character *)

(** C8: [-e] keeps the first byte of its argument as the end-of-line
    character and nothing else of it.  Given an argument that starts with
    the byte [c], whatever follows [c] in it, the shell stores [c] itself;
    given the empty argument it stores the terminating NUL.  Two arguments
    that start with the same byte leave the same state, the same trace and
    the same world, and the line read that follows is called once, with [c]
    as its sentinel. *)
Theorem eolchar_is_first_byte (st : state) (c : ascii) (rest rest' : string)
        (w : world) (Hfd : fd st <> -1) :
  value (step st (Oe (String c rest)) w) = Ret (set_eolchar st c) /\
  value (step st (Oe "") w) = Ret (set_eolchar st zero) /\
  step st (Oe (String c rest)) w = step st (Oe (String c rest')) w /\
  getopt_loop [Oe (String c rest); Or] st w
  = getopt_loop [Oe (String c rest'); Or] st w /\
  sentinels (trace (getopt_loop [Oe (String c rest); Or] st w)) = [c] /\
  exists got,
    In (SerialReadUntil (fd st) c buf_max (timeout st) got)
       (trace (getopt_loop [Oe (String c rest); Or] st w)).
Proof.
  apply Z.eqb_neq in Hfd.
  destruct st as [f sp br q e t bb]; simpl in Hfd.
  repeat split.
  - destruct q; reflexivity.
  - destruct q; reflexivity.
  - destruct q; simpl; shell; rewrite Hfd; reflexivity.
  - exists (hd "" (w_read_until w)).
    destruct q; simpl; shell; rewrite Hfd; simpl; auto.
Qed.

Lemma eolchar_is_first_byte_witness :
  fd opened <> -1 /\
  value (step opened (Oe ";rest") quiet_line)
  = Ret (set_eolchar opened ";"%char) /\
  sentinels (trace (getopt_loop [Oe ";rest"; Or] opened quiet_line))
  = [";"%char].
Proof.
  assert (H : fd opened <> -1) by discriminate.
  pose proof (@eolchar_is_first_byte opened ";"%char "rest" "" quiet_line H)
    as (Hv & _ & _ & _ & Hs & _).
  split; [exact H|].
  split; [exact Hv|exact Hs].
Defined.

(** ** C2: what a byte read shows of its outcome *)

(** C2, as stated, at [-p /dev/ttyUSB0 -y]: the run whose read times out and
    the run whose read receives a zero byte print the same text and end
    with the same status. *)
Lemma timeout_shown_as_zero_byte :
  let run := main 3 [Op "/dev/ttyUSB0"; Oy] zero in
  observable (trace (run line_silent)) = observable (trace (run line_sends_nul))
  /\ status (run line_silent) = status (run line_sends_nul)
  /\ In (SerialReadByte 3 5000 0 None) (trace (run line_silent))
  /\ In (SerialReadByte 3 5000 1 (Some zero)) (trace (run line_sends_nul)).
Proof.
  vm_compute. repeat split; auto 10.
Qed.

(** The text the capture loop of [-v] prints is the echo of a byte. *)
Lemma save_loop_prints_echo (line : list answer) (fd ofile : Z) (b : ascii)
      (a : Z) (w : world) (fmt : string) :
  fmt <> "%c" ->
  ~ In (Printf fmt []) (trace (save_loop line fd ofile b a w)).
Proof.
  intros Hfmt Hin.
  pose proof (@save_loop_events (fun e => e <> Printf fmt [])
                                line fd ofile b a w) as H.
  rewrite Forall_forall in H.
  apply (H ltac:(discriminate) ltac:(discriminate) ltac:(discriminate)
           ltac:(discriminate) ltac:(discriminate) _ Hin).
  reflexivity.
Qed.

(** C2, amended: [-y] drops the return code of its read and prints the
    byte found in the zeroed buffer, so two reads that leave the same byte
    there print the same text whatever their codes; [-v] does look at the
    code of its first read and prints "found input." exactly when it is
    positive, "error: no input found." otherwise. *)
Theorem read_code_dropped_by_y_kept_by_v
        (st : state) (w1 w2 : world) (path : string)
        (Hfd : fd st <> -1)
        (Hbyte : stored (snd (hd timed_out (w_read_byte w1))) zero
                 = stored (snd (hd timed_out (w_read_byte w2))) zero)
        (Hopen : 0 <= hd (-1) (w_open w1)) :
  observable (trace (step st Oy w1)) = observable (trace (step st Oy w2)) /\
  status (step st Oy w1) = None /\
  status (step st Oy w2) = None /\
  (In (Printf ("found input." ++ C.nl)%string []) (trace (step st (Ov path) w1))
   <-> 0 < fst (hd timed_out (w_read_byte w1))) /\
  (In (Printf ("error: no input found." ++ C.nl)%string [])
      (trace (step st (Ov path) w1))
   <-> fst (hd timed_out (w_read_byte w1)) <= 0).
Proof.
  apply Z.eqb_neq in Hfd. apply Z.ltb_ge in Hopen.
  destruct st as [f sp br q e t bb]; simpl in Hfd.
  split; [|split; [|split]].
  - destruct q; shell; rewrite Hfd; simpl; rewrite Hbyte; reflexivity.
  - destruct q; shell; rewrite Hfd; reflexivity.
  - destruct q; shell; rewrite Hfd; reflexivity.
  - assert (Hrc : forall rc : Z, (rc <=? 0) = true -> ~ 0 < rc)
      by (intros rc H; apply Z.leb_le in H; lia).
    assert (Hrc' : forall rc : Z, (rc <=? 0) = false -> ~ rc <= 0)
      by (intros rc H; apply Z.leb_gt in H; lia).
    destruct q; shell; rewrite Hfd; simpl; rewrite Hopen; simpl;
      (destruct (fst (hd timed_out (w_read_byte w1)) <=? 0) eqn:Hcode; simpl;
       [ apply Hrc in Hcode | apply Hrc' in Hcode ]);
      tests;
      try match goal with
          | |- context [save_loop ?l ?d ?o ?b ?a ?w] =>
              pose proof (@save_loop_prints_echo l d o b a w
                            ("found input." ++ C.nl)%string
                            ltac:(discriminate));
              pose proof (@save_loop_prints_echo l d o b a w
                            ("error: no input found." ++ C.nl)%string
                            ltac:(discriminate));
              destruct (save_loop l d o b a w) as [tl' wl' [bl'|sl']]
          end;
      simpl in *;
      (split; split; intro Hin; try lia; try tauto;
       repeat match goal with
              | H : _ \/ _ |- _ => destruct H as [H|H]; try discriminate H
              | H : In _ (_ ++ _) |- _ => apply in_app_or in H
              | H : In _ (_ :: _) |- _ => simpl in H
              end;
       try tauto).
Qed.

Lemma read_code_dropped_by_y_kept_by_v_witness :
  observable (trace (step opened Oy line_silent))
  = observable (trace (step opened Oy line_sends_nul)).
Proof.
  apply (@read_code_dropped_by_y_kept_by_v
           opened line_silent line_sends_nul "capture"
           ltac:(discriminate) eq_refl).
  simpl. lia.
Defined.

(** ** C1: the exit status *)

(** Replaces a loop call in the goal by its outcome, which is a return to
    the [switch]. *)
Ltac loop_returns :=
  match goal with
  | |- context [stream_loop ?f ?d ?b ?a ?w] =>
      let H := fresh "Hret" in
      destruct (stream_loop_returns f d b a w) as [[? ?] H];
      destruct (stream_loop f d b a w) as [? ? ?]; simpl in H; subst; simpl
  | |- context [save_loop ?f ?d ?o ?b ?a ?w] =>
      let H := fresh "Hret" in
      destruct (save_loop_returns f d o b a w) as [? H];
      destruct (save_loop f d o b a w) as [? ? ?]; simpl in H; subst; simpl
  | |- context [send_lines ?f ?d ?q ?rc ?w] =>
      let H := fresh "Hret" in
      destruct (send_lines_returns f d q rc w) as [? H];
      destruct (send_lines f d q rc w) as [? ? ?]; simpl in H; subst; simpl
  end.

Lemma step_status_table (st : state) (o : opt) (w : world) :
  (o = Oi -> fd st = -1) ->
  status (step st o w) = step_status st o w.
Proof.
  intro Hi.
  destruct st as [f sp br q e t bb]; simpl in Hi.
  destruct o; try (specialize (Hi eq_refl); subst f);
    destruct q; unfold step_status; shell; tests;
    repeat (loop_returns; tests); try reflexivity.
Qed.

Lemma step_status_range (st : state) (o : opt) (w : world) :
  status (step st o w) = None \/
  status (step st o w) = Some 0 \/
  status (step st o w) = Some 1.
Proof.
  destruct st as [f sp br q e t bb].
  destruct o; destruct q; shell; tests;
    repeat (loop_returns; tests); auto.
Qed.

Lemma loop_status_range (opts : list opt) (st : state) (w : world) :
  loop_status opts st w = 0 \/ loop_status opts st w = 1.
Proof.
  revert st w.
  induction opts as [|o rest IH]; intros st w; simpl; [auto|].
  pose proof (step_status_range st o w) as H. unfold status in H.
  destruct (step st o w) as [t w' [st'|s]]; simpl in H; [apply IH|].
  destruct H as [H|[H|H]]; inversion H; auto.
Qed.

Lemma main_status (argc : Z) (opts : list opt) (junk : ascii) (w : world) :
  argc <> 1 ->
  status (main argc opts junk w) = Some (loop_status opts (initial junk) w).
Proof.
  intro Hargc. apply Z.eqb_neq in Hargc.
  unfold main. rewrite Hargc. simpl.
  rewrite status_bind. simpl.
  generalize (initial junk) as st. revert w.
  induction opts as [|o rest IH]; intros w st.
  - reflexivity.
  - simpl. rewrite status_bind, value_bind.
    destruct (step st o w) as [t w' [st'|s]]; simpl; [|reflexivity].
    specialize (IH w' st'). rewrite status_bind in IH.
    destruct (value (getopt_loop rest st' w')); exact IH.
Qed.

(** C1, as stated, at [-p /dev/ttyUSB0 -f data.bin]: the write of the file
    relay fails (the library answers -1) and the process still ends with
    status 0. *)
Lemma relay_write_failure_exits_0 :
  let run := main 5 [Op "/dev/ttyUSB0"; Of "data.bin"] zero port_rejects_byte in
  In (SerialWriteByte 3 "A" (-1)) (trace run) /\ status run = Some 0.
Proof.
  vm_compute. split; [|reflexivity].
  repeat (first [left; reflexivity | right]).
Qed.

(** C1, amended: without arguments the shell prints the help and ends
    with status 0; every run ends with status 0 or 1, the status of the
    first option that leaves, 0 when none does; and an option leaves as
    [step_status] tells: [-h] with 0; an option that works on the port, on a
    closed port, with 1; [-p] whose open fails with 1; [-n], [-s], [-S]
    whose write answers -1 with 1; in every other case the shell goes on
    (for [-i] the table speaks of the closed port only). *)
Theorem exit_status_of_the_shell
        (argc : Z) (opts : list opt) (junk : ascii) (st : state) (o : opt)
        (w : world) (Hi : o = Oi -> fd st = -1) :
  status (main 1 opts junk w) = Some 0 /\
  (status (main argc opts junk w) = Some 0 \/
   status (main argc opts junk w) = Some 1) /\
  (argc <> 1 ->
   status (main argc opts junk w) = Some (loop_status opts (initial junk) w)) /\
  status (step st o w) = step_status st o w.
Proof.
  split; [reflexivity|].
  split; [|split; [apply main_status | apply step_status_table; exact Hi]].
  destruct (Z.eq_dec argc 1) as [->|Hargc]; [left; reflexivity|].
  rewrite (main_status opts junk w Hargc).
  destruct (loop_status_range opts (initial junk) w) as [H|H]; rewrite H; auto.
Qed.

Lemma exit_status_of_the_shell_witness :
  status (step (initial zero) (Os "hello") quiet_line) = Some 1.
Proof.
  apply (@exit_status_of_the_shell 3 [Os "hello"] zero (initial zero)
           (Os "hello") quiet_line).
  discriminate.
Defined.

(** ** The file relay of [-f] *)

(** *** The counter *)

Lemma to_short_add (x d : Z) :
  C.to_short (C.to_short x + d) = C.to_short (x + d).
Proof.
  unfold C.to_short.
  replace ((x + 2 ^ 15) mod 2 ^ 16 - 2 ^ 15 + d + 2 ^ 15)
    with ((x + 2 ^ 15) mod 2 ^ 16 + d) by ring.
  replace (x + d + 2 ^ 15) with ((x + 2 ^ 15) + d) by ring.
  rewrite Z.add_mod_idemp_l by (compute; discriminate).
  reflexivity.
Qed.



Lemma counter_succ (k : nat) : C.to_short (counter k + 1) = counter (S k).
Proof.
  unfold counter. rewrite to_short_add, Nat2Z.inj_succ. reflexivity.
Qed.




(** *** The shell around the loop *)

Lemma step_f_unfold (st : state) (path : string) (w : world)
      (ifile : list answer) :
  fd st <> -1 ->
  hd None (w_fopen w) = Some ifile ->
  let o := stream_loop ifile (fd st) (b st) 0 (at_loop w) in
  trace (step st (Of path) w)
  = prologue st path (hd 0 (w_time w)) ++ trace o
    ++ epilogue st (count_of o) (hd 0 (w_time w)) (hd 0 (w_time (final o)))
  /\ status (step st (Of path) w) = None.
Proof.
  intros Hfd Hopen. apply Z.eqb_neq in Hfd.
  destruct st as [f sp br q e t bb]; simpl in Hfd.
  unfold prologue, epilogue, count_of, at_loop.
  destruct q; shell; rewrite Hfd; simpl; rewrite Hopen; simpl;
    loop_returns; rewrite <- ?app_assoc; simpl; auto.
Qed.

(** The loop leaves the clock alone. *)
Lemma stream_loop_time (ifile : list answer) (fd : Z) (b : ascii) (a : Z)
      (w : world) :
  w_time (final (stream_loop ifile fd b a w)) = w_time w.
Proof.
  revert b a w.
  induction ifile as [|[rc got] rest IH]; intros b a w; simpl;
    unfold stream_body, end_of_file; shell; [reflexivity|].
  tests; try reflexivity; run_loop IH; exact Hloop.
Qed.

(** *** A file that delivers all its bytes, to a port that takes them *)

Lemma last_cons {A : Type} (x : A) (l : list A) (d : A) :
  last (x :: l) d = last l x.
Proof.
  revert x d. induction l as [|y l IH]; intros x d; [reflexivity|].
  change (last (y :: l) d = last (y :: l) x).
  rewrite !IH. reflexivity.
Qed.

Lemma stream_loop_data (data : list (Z * ascii)) (fd : Z) (b : ascii)
      (k : nat) (w : world) :
  Forall (fun d => is_data (fst d)) data ->
  Forall (fun r => r = 0) (w_writebyte w) ->
  let o := stream_loop (data_answers data) fd b (counter k) w in
  trace o = relay_events fd drain_due k data b /\
  value o = Ret (last (map snd data) b, counter (k + List.length data)).
Proof.
  revert b k w.
  induction data as [|[rc c] rest IH]; intros b k w Hdata Hwrite; simpl.
  - rewrite Nat.add_0_r. unfold stream_body, end_of_file. shell. auto.
  - inversion Hdata as [|d l [Hrc Hrc2] Hrest]; subst. simpl in Hrc, Hrc2.
    assert (H0 : hd 0 (w_writebyte w) = 0)
      by (destruct Hwrite; [reflexivity|assumption]).
    assert (Htl : Forall (fun r => r = 0) (tl (w_writebyte w)))
      by (destruct Hwrite; [constructor|assumption]).
    apply Z.ltb_ge in Hrc. apply Z.eqb_neq in Hrc2.
    unfold stream_body. shell. rewrite Hrc, Hrc2, H0. simpl.
    unfold turn, drain_due. simpl.
    replace (k + S (List.length rest))%nat with (S k + List.length rest)%nat by lia.
    destruct (Z.rem (counter k) 60 =? 0); simpl; rewrite counter_succ;
      match goal with
      | |- context [stream_loop _ fd ?b' _ ?w'] =>
          destruct (IH b' (S k) w' Hrest Htl) as [Ht Hv];
          destruct (stream_loop (data_answers rest) fd b' (counter (S k)) w')
            as [t' w'' v']; simpl in Ht, Hv; subst; simpl
      end;
      (split; [reflexivity|]);
      rewrite <- (last_cons c (map snd rest) b); reflexivity.
Qed.

Lemma written_relay_events (fd : Z) (due : nat -> bool) (k : nat)
      (data : list (Z * ascii)) (b : ascii) :
  written fd (relay_events fd due k data b) = map snd data.
Proof.
  revert k b.
  induction data as [|[rc c] rest IH]; intros k b; simpl; [reflexivity|].
  rewrite Z.eqb_refl. simpl.
  destruct (due k); simpl; rewrite IH; reflexivity.
Qed.

Lemma echoed_relay_events (fd : Z) (due : nat -> bool) (k : nat)
      (data : list (Z * ascii)) (b : ascii) :
  echoed (relay_events fd due k data b)
  = map snd data ++ [last (map snd data) b].
Proof.
  revert k b.
  induction data as [|[rc c] rest IH]; intros k b; simpl; [reflexivity|].
  destruct (due k); simpl; rewrite IH;
    rewrite <- (last_cons c (map snd rest) b); reflexivity.
Qed.


Lemma written_around (st : state) (path : string) (tr : list event)
      (a t0 t1 : Z) :
  written (fd st) (prologue st path t0 ++ tr ++ epilogue st a t0 t1)
  = written (fd st) tr.
Proof.
  unfold written. rewrite !flat_map_app.
  unfold prologue, epilogue. destruct (quiet st); simpl; apply app_nil_r.
Qed.

Lemma echoed_around (st : state) (path : string) (tr : list event)
      (a t0 t1 : Z) :
  echoed (prologue st path t0 ++ tr ++ epilogue st a t0 t1) = echoed tr.
Proof.
  unfold echoed. rewrite !flat_map_app.
  unfold prologue, epilogue. destruct (quiet st); simpl; apply app_nil_r.
Qed.

(** The whole [-f] step on a file that delivers all its bytes. *)
Lemma step_f_data (st : state) (path : string) (data : list (Z * ascii))
      (w : world) :
  fd st <> -1 ->
  hd None (w_fopen w) = Some (data_answers data) ->
  Forall (fun d => is_data (fst d)) data ->
  Forall (fun r => r = 0) (w_writebyte w) ->
  trace (step st (Of path) w)
  = prologue st path (hd 0 (w_time w))
    ++ relay_events (fd st) drain_due 0 data (b st)
    ++ epilogue st (counter (List.length data)) (hd 0 (w_time w))
                (hd 0 (tl (w_time w))).
Proof.
  intros Hfd Hopen Hdata Hwrite.
  destruct (@step_f_unfold st path w _ Hfd Hopen) as [Htr _].
  destruct (@stream_loop_data data (fd st) (b st) 0%nat (at_loop w) Hdata Hwrite)
    as [Ht Hv].
  change (counter 0) with 0 in Ht, Hv.
  rewrite Htr, Ht. unfold count_of. rewrite Hv, stream_loop_time.
  reflexivity.
Qed.

(** ** C5: every byte of the file, in order, with a drain every 60 bytes *)




(** ** How the loop ends *)

(** Turns the tests decided so far into arithmetic. *)
Ltac arith :=
  repeat match goal with
         | H : (_ <? _) = true |- _ => apply Z.ltb_lt in H
         | H : (_ <? _) = false |- _ => apply Z.ltb_ge in H
         | H : (_ <=? _) = true |- _ => apply Z.leb_le in H
         | H : (_ <=? _) = false |- _ => apply Z.leb_gt in H
         | H : (_ =? _) = true |- _ => apply Z.eqb_eq in H
         | H : (_ =? _) = false |- _ => apply Z.eqb_neq in H
         end.

(** Uses the tests decided so far where the goal asks them again. *)
Ltac retest :=
  repeat match goal with
         | H : ?c = _ |- context [if ?c then _ else _] => rewrite H; simpl
         end.

Lemma stream_loop_eof (ifile : list answer) (fd : Z) (b : ascii) (a : Z)
      (w : world) (rest : list event) :
  let tr := trace (stream_loop ifile fd b a w) in
  (exists got c,
      from is_eof_read (tr ++ rest)
      = SerialReadByteFile 10000 2 got :: echo c :: eof_report
        :: SerialFlush fd :: rest /\
      List.length (filter is_eof_report tr) = 1%nat) \/
  (from is_eof_read (tr ++ rest) = from is_eof_read rest /\
   List.length (filter is_eof_report tr) = 0%nat).
Proof.
  revert b a w.
  induction ifile as [|[rc got] more IH]; intros b a w; simpl;
    unfold stream_body, end_of_file; shell.
  - left. exists None, b. auto.
  - tests; try (exfalso; arith; lia);
      try (right; split; reflexivity);
      try (left; arith; subst; eexists; eexists; split; reflexivity);
      run_loop IH; retest; exact Hloop.
Qed.

Lemma stream_loop_failure (ifile : list answer) (fd : Z) (b : ascii) (a : Z)
      (w : world) (rest : list event) :
  let tr := trace (stream_loop ifile fd b a w) in
  (exists rc got c,
      rc < 0 /\
      from is_failed_read (tr ++ rest)
      = SerialReadByteFile 10000 rc got :: echo c :: failure_report rc :: rest)
  \/ from is_failed_read (tr ++ rest) = from is_failed_read rest.
Proof.
  revert b a w.
  induction ifile as [|[rc got] more IH]; intros b a w; simpl;
    unfold stream_body, end_of_file; shell.
  - right. reflexivity.
  - tests; try (exfalso; arith; lia);
      try (right; reflexivity);
      try (left; arith; eexists; eexists; eexists; split;
           [eassumption|reflexivity]);
      run_loop IH; retest; exact Hloop.
Qed.

Lemma stream_loop_echo (ifile : list answer) (fd : Z) (b : ascii) (a : Z)
      (w : world) (rest : list event) :
  echo_follows_read false (trace (stream_loop ifile fd b a w) ++ rest)
  = echo_follows_read false rest.
Proof.
  revert b a w.
  induction ifile as [|[rc got] more IH]; intros b a w; simpl;
    unfold stream_body, end_of_file; shell; [reflexivity|].
  tests; try reflexivity; run_loop IH; retest; exact Hloop.
Qed.

Lemma from_prologue (p : event -> bool) (st : state) (path : string) (t0 : Z)
      (tr : list event) :
  p (Clock t0) = false -> p (Fopen path true) = false ->
  (forall fmt args, p (Printf fmt args) = false) ->
  p (SerialFlush (fd st)) = false ->
  from p (prologue st path t0 ++ tr) = from p tr.
Proof.
  intros Hc Ho Hp Hf. unfold prologue.
  destruct (quiet st); simpl; rewrite ?Hc, ?Ho, ?Hp, ?Hf; reflexivity.
Qed.

(** ** C6: the end of the file *)

(** C6: when a read of the file relay answers end-of-file (code 2), what
    follows in the [-f] step is the echo, the report "end of file reached",
    one flush of the serial handle, and the closing lines of the step: the
    report is printed once in the whole step, no byte is written and no
    read is made after it, and the shell goes on to the next option. *)
Theorem relay_stops_at_end_of_file
        (st : state) (path : string) (w : world) (ifile : list answer)
        (e : event) (post : list event)
        (Hfd : fd st <> -1)
        (Hopen : hd None (w_fopen w) = Some ifile)
        (Heof : from is_eof_read (trace (step st (Of path) w)) = e :: post) :
  (exists c a t0 t1,
      post = [echo c; eof_report; SerialFlush (fd st)] ++ epilogue st a t0 t1) /\
  List.length (filter is_eof_report (trace (step st (Of path) w))) = 1%nat /\
  filter is_write post = [] /\
  filter is_file_read post = [] /\
  status (step st (Of path) w) = None.
Proof.
  pose proof (@step_f_unfold st path w ifile Hfd Hopen) as H.
  cbv zeta in H. destruct H as [Htr Hst].
  rewrite Htr in Heof |- *. clear Htr.
  rewrite from_prologue in Heof by auto.
  match type of Heof with
  | from _ (trace ?o ++ ?ep) = _ =>
      destruct (@stream_loop_eof ifile (fd st) (b st) 0 (at_loop w) ep)
        as [(got & c & Hfrom & Hcount)|[Hfrom Hcount]];
      simpl in Hfrom, Hcount; rewrite Hfrom in Heof
  end.
  - inversion Heof; subst e post; clear Heof.
    split; [exists c; do 3 eexists; reflexivity|].
    rewrite !filter_app, !length_app, Hcount.
    unfold prologue, epilogue.
    destruct (quiet st); simpl; auto.
  - exfalso. unfold epilogue in Heof.
    destruct (quiet st); simpl in Heof; discriminate Heof.
Qed.

Lemma relay_stops_at_end_of_file_witness :
  List.length
    (filter is_eof_report (trace (step opened (Of "data.bin") two_byte_file)))
  = 1%nat.
Proof.
  apply (@relay_stops_at_end_of_file
           opened "data.bin" two_byte_file
           (data_answers [(0, "H"%char); (0, "i"%char)])
           (SerialReadByteFile 10000 2 None)
           ([echo "i"; eof_report; SerialFlush 3] ++ epilogue opened 2 0 0)).
  - discriminate.
  - reflexivity.
  - reflexivity.
Defined.

(** ** C7: a read of the file that fails *)

(** C7: when a read of the file relay answers a negative code, what
    follows in the [-f] step is the echo, the report of the failure with
    that code, and the closing lines of the step: the read is not made
    again, nothing is written to the port, and the shell goes on to the
    next option. *)
Theorem relay_stops_at_failed_read
        (st : state) (path : string) (w : world) (ifile : list answer)
        (e : event) (post : list event)
        (Hfd : fd st <> -1)
        (Hopen : hd None (w_fopen w) = Some ifile)
        (Hfail : from is_failed_read (trace (step st (Of path) w)) = e :: post) :
  (exists rc got c a t0 t1,
      rc < 0 /\
      e = SerialReadByteFile 10000 rc got /\
      post = [echo c; failure_report rc] ++ epilogue st a t0 t1) /\
  filter is_file_read post = [] /\
  filter is_write post = [] /\
  status (step st (Of path) w) = None.
Proof.
  pose proof (@step_f_unfold st path w ifile Hfd Hopen) as H.
  cbv zeta in H. destruct H as [Htr Hst].
  rewrite Htr in Hfail. clear Htr.
  rewrite from_prologue in Hfail by auto.
  match type of Hfail with
  | from _ (trace ?o ++ ?ep) = _ =>
      destruct (@stream_loop_failure ifile (fd st) (b st) 0 (at_loop w) ep)
        as [(rc & got & c & Hrc & Hfrom)|Hfrom];
      simpl in Hfrom; rewrite Hfrom in Hfail
  end.
  - inversion Hfail; subst e post; clear Hfail.
    split; [exists rc, got, c; do 3 eexists; repeat split; assumption|].
    unfold epilogue. destruct (quiet st); simpl; auto.
  - exfalso. unfold epilogue in Hfail.
    destruct (quiet st); simpl in Hfail; discriminate Hfail.
Qed.

Lemma relay_stops_at_failed_read_witness :
  filter is_file_read [echo "H"; failure_report (-1); Printf C.nl []; Clock 0;
                       Printf ("completed file read/input (%d bytes) (%.2f minutes OR %.2f seconds)" ++ C.nl)%string
                              [AInt 1; ADbl 0 60; ADbl 0 1];
                       Fclose] = [].
Proof.
  apply (@relay_stops_at_failed_read
           opened "data.bin" file_breaks [(0, Some "H"%char); (-1, None)]
           (SerialReadByteFile 10000 (-1) None)).
  - discriminate.
  - reflexivity.
  - reflexivity.
Defined.

(** ** C9: the echo comes before the test of the code *)

Lemma step_f_echo (st : state) (path : string) (w : world) :
  echo_follows_read false (trace (step st (Of path) w)) = true.
Proof.
  destruct (Z.eq_dec (fd st) (-1)) as [Hfd|Hfd].
  - destruct st as [f sp br q e t bb]; simpl in Hfd; subst f.
    destruct q; reflexivity.
  - destruct (hd None (w_fopen w)) as [ifile|] eqn:Hopen.
    + pose proof (@step_f_unfold st path w ifile Hfd Hopen) as H.
      cbv zeta in H. destruct H as [Htr _]. rewrite Htr.
      unfold prologue.
      destruct (quiet st) eqn:Hq; simpl; rewrite stream_loop_echo;
        unfold epilogue; rewrite Hq; reflexivity.
    + apply Z.eqb_neq in Hfd.
      destruct st as [f sp br q e t bb]; simpl in Hfd.
      destruct q; shell; rewrite Hfd; simpl; rewrite Hopen; reflexivity.
Qed.

(** C9: in the [-f] step every read of the file is followed at once by the
    echo of the byte variable, before the code of the read is looked at.
    So on a file whose reads deliver the bytes [data] and then end-of-file
    (which stores nothing), the console gets one echo more than the port
    gets bytes: the bytes of the file, then the last of them once again,
    or, when the file is empty, the value the byte variable had before
    the step (at the start of [main], whatever the stack held). *)
Theorem relay_echoes_before_testing
        (st : state) (path : string) (data : list (Z * ascii)) (w : world)
        (junk : ascii)
        (Hfd : fd st <> -1)
        (Hopen : hd None (w_fopen w) = Some (data_answers data))
        (Hdata : Forall (fun d => is_data (fst d)) data)
        (Hwrite : Forall (fun r => r = 0) (w_writebyte w)) :
  let tr := trace (step st (Of path) w) in
  echo_follows_read false tr = true /\
  echoed tr = map snd data ++ [last (map snd data) (b st)] /\
  written (fd st) tr = map snd data /\
  (data = [] -> echoed tr = [b st] /\ written (fd st) tr = []) /\
  b (initial junk) = junk.
Proof.
  intro tr. subst tr.
  split; [apply step_f_echo|].
  rewrite (@step_f_data st path data w Hfd Hopen Hdata Hwrite).
  rewrite echoed_around, written_around.
  rewrite echoed_relay_events, written_relay_events.
  repeat split; try reflexivity; subst data; reflexivity.
Qed.

Lemma relay_echoes_before_testing_witness :
  echoed (trace (step opened (Of "data.bin") two_byte_file))
  = ["H"%char; "i"%char; "i"%char] /\
  echoed (trace (step (set_b opened "z") (Of "empty") empty_file))
  = ["z"%char].
Proof.
  assert (Hdata : Forall (fun d : Z * ascii => is_data (fst d))
                         [(0, "H"%char); (0, "i"%char)])
    by (repeat constructor; simpl; lia).
  split.
  - exact (proj1 (proj2 (@relay_echoes_before_testing
                           opened "data.bin" [(0, "H"%char); (0, "i"%char)]
                           two_byte_file zero ltac:(discriminate) eq_refl
                           Hdata (Forall_nil _)))).
  - exact (proj1 (proj2 (@relay_echoes_before_testing
                           (set_b opened "z") "empty" [] empty_file zero
                           ltac:(discriminate) eq_refl
                           (Forall_nil _) (Forall_nil _)))).
Defined.

(** ** The handle protocol on every run *)

Lemma run_port_app (s : session) (t1 t2 : list event) :
  run_port s (t1 ++ t2)
  = match run_port s t1 with
    | Some s' => run_port s' t2
    | None => None
    end.
Proof.
  revert s. induction t1 as [|e t1 IH]; intro s; simpl; [reflexivity|].
  destruct (port_step s e); [apply IH|reflexivity].
Qed.

Lemma run_port_stable (s : session) (tr : list event) :
  Forall (fun e => port_step s e = Some s) tr -> run_port s tr = Some s.
Proof.
  induction 1 as [|e tr He _ IH]; simpl; [reflexivity|].
  rewrite He. exact IH.
Qed.

(** Settles the tests of [port_step] on a handle against itself. *)
Ltac same_handle :=
  repeat (simpl; unfold names, captures;
          rewrite ?Z.eqb_refl, ?orb_true_r; simpl);
  try reflexivity.

Lemma stream_loop_port (ifile : list answer) (fd : Z) (b : ascii) (a : Z)
      (w : world) (cap : option Z) :
  run_port (Ready fd, cap) (trace (stream_loop ifile fd b a w))
  = Some (Ready fd, cap).
Proof.
  apply run_port_stable, stream_loop_events; intros; unfold port_step;
    same_handle.
Qed.

Lemma save_loop_port (line : list answer) (fd ofile : Z) (b : ascii) (a : Z)
      (w : world) :
  run_port (Ready fd, Some ofile) (trace (save_loop line fd ofile b a w))
  = Some (Ready fd, Some ofile).
Proof.
  apply run_port_stable, save_loop_events; intros; unfold port_step;
    same_handle.
Qed.

Lemma send_lines_port (lines : list string) (fd : Z) (q : bool) (rc : Z)
      (w : world) (cap : option Z) :
  run_port (Ready fd, cap) (trace (send_lines lines fd q rc w))
  = Some (Ready fd, cap).
Proof.
  apply run_port_stable, send_lines_events; intros; unfold port_step;
    same_handle.
Qed.

(** Names the outcome of a loop call in the goal, with what the loop does
    to the port. *)
Ltac port_loop :=
  match goal with
  | |- context [stream_loop ?i ?d ?b ?a ?w] =>
      let Hp := fresh "Hport" in
      let Hr := fresh "Hret" in
      pose proof (stream_loop_port i d b a w None) as Hp;
      destruct (stream_loop_returns i d b a w) as [[? ?] Hr];
      destruct (stream_loop i d b a w) as [? ? ?]; simpl in Hp, Hr; subst
  | |- context [save_loop ?i ?d ?o ?b ?a ?w] =>
      let Hp := fresh "Hport" in
      let Hr := fresh "Hret" in
      pose proof (save_loop_port i d o b a w) as Hp;
      destruct (save_loop_returns i d o b a w) as [? Hr];
      destruct (save_loop i d o b a w) as [? ? ?]; simpl in Hp, Hr; subst
  | |- context [send_lines ?i ?d ?q ?rc ?w] =>
      let Hp := fresh "Hport" in
      let Hr := fresh "Hret" in
      pose proof (send_lines_port i d q rc w None) as Hp;
      destruct (send_lines_returns i d q rc w) as [? Hr];
      destruct (send_lines i d q rc w) as [? ? ?]; simpl in Hp, Hr; subst
  end.

Ltac known_tests :=
  repeat match goal with
         | H : ?c = true |- context [?c] => rewrite H
         | H : ?c = false |- context [?c] => rewrite H
         end.

Ltac port_run :=
  repeat (simpl; unfold port_step, names, captures;
          rewrite ?Z.eqb_refl, ?orb_true_r, ?run_port_app;
          repeat match goal with
                 | H : run_port _ _ = _ |- _ => rewrite H
                 end;
          known_tests).

(** Every option leaves the port as the shell state says. *)
Lemma step_port (st : state) (o : opt) (w : world) :
  exists s,
    run_port (session_of st) (trace (step st o w)) = Some s /\
    forall st', value (step st o w) = Ret st' -> s = session_of st'.
Proof.
  destruct st as [f sp br q e t bb]. unfold session_of. simpl.
  destruct (f =? -1) eqn:Hf.
  - apply Z.eqb_eq in Hf. subst f.
    destruct o; destruct q; shell; tests; try congruence; port_run;
      (eexists; split; [reflexivity|]);
      intros st' H; inversion H; subst; simpl; known_tests; reflexivity.
  - destruct o; destruct q; shell; rewrite ?Hf; simpl; tests;
      repeat (port_loop; simpl; tests); try congruence; port_run;
      (eexists; split; [reflexivity|]);
      intros st' H; inversion H; subst; simpl; known_tests; reflexivity.
Qed.

Lemma getopt_loop_port (opts : list opt) (st : state) (w : world) :
  exists s, run_port (session_of st) (trace (getopt_loop opts st w)) = Some s.
Proof.
  revert st w.
  induction opts as [|o rest IH]; intros st w; simpl.
  - eexists. reflexivity.
  - rewrite trace_bind.
    destruct (step_port st o w) as (s & Hrun & Hs).
    destruct (value (step st o w)) as [st'|x].
    + rewrite run_port_app, Hrun, (Hs st' eq_refl). apply IH.
    + eauto.
Qed.

Lemma main_port (argc : Z) (opts : list opt) (junk : ascii) (w : world) :
  exists s, run_port (NoPort, None) (trace (main argc opts junk w)) = Some s.
Proof.
  unfold main. destruct (argc =? 1); simpl.
  - eexists. reflexivity.
  - rewrite trace_bind. simpl. rewrite trace_bind.
    destruct (getopt_loop_port opts (initial junk) w) as [s Hs].
    change (session_of (initial junk)) with (NoPort, @None Z) in Hs.
    destruct (value (getopt_loop opts (initial junk) w)); simpl;
      rewrite ?app_nil_r; eauto.
Qed.

Lemma live_run_port (s s' : session) (tr : list event) :
  run_port s tr = Some s' -> live (handles (fst s)) tr = handles (fst s').
Proof.
  revert s.
  induction tr as [|e tr IH]; intros s H; simpl in H.
  - inversion H. reflexivity.
  - destruct (port_step s e) as [q|] eqn:Hstep; [|discriminate H].
    specialize (IH q H). rewrite <- IH. clear IH H.
    destruct s as [[|h|h] cap]; destruct e; unfold port_step in Hstep;
      simpl in Hstep |- *;
      try discriminate Hstep;
      repeat match type of Hstep with
             | context [if ?c then _ else _] => destruct c eqn:?
             end;
      inversion Hstep; subst; simpl; arith; subst; try reflexivity;
      destruct (Z.eq_dec _ _); [reflexivity|contradiction].
Qed.

(** ** C10: a port is flushed as soon as it is open *)

(** The protocol does refuse a port that is used before it is flushed, a
    byte written to a descriptor that is neither the port nor the capture
    file, and a second open without a close. *)
Lemma protocol_refuses :
  run_port (NoPort, None)
           [SerialInit "/dev/ttyUSB0" 9600 3; SerialWrite 3 "hello" 0] = None /\
  run_port (NoPort, None)
           [SerialInit "/dev/ttyUSB0" 9600 3; SerialFlush 3;
            SerialWriteByte 5 "A" 0] = None /\
  run_port (NoPort, None)
           [SerialInit "/dev/ttyUSB0" 9600 3; SerialFlush 3;
            SerialInit "/dev/ttyUSB1" 9600 4] = None.
Proof. repeat split. Qed.

(** C10: a [-p] whose open succeeds ends with [serialport_init], the line
    "opened port" unless quiet, and [serialport_flush] on the handle just
    returned, which becomes the handle of the shell; and the trace of
    every run follows the protocol of [port_step]: after a successful
    [serialport_init] the next call, console output apart, is
    [serialport_flush] on the new handle, and every read, write, flush,
    drain or close of the port names a handle that was opened and flushed
    this way (a byte write or a drain may also name the capture file of
    [-v], a drain the console). *)
Theorem port_flushed_right_after_open
        (argc : Z) (opts : list opt) (junk : ascii) (w : world)
        (st : state) (port : string) (w' : world)
        (Hopen : hd (-1) (w_init w') <> -1) :
  let r := hd (-1) (w_init w') in
  (exists s, run_port (NoPort, None) (trace (main argc opts junk w)) = Some s) /\
  (exists pre,
      trace (step st (Op port) w')
      = pre
        ++ SerialInit port (baudrate st) r
        :: (if quiet st then []
            else [Printf ("opened port %s" ++ C.nl)%string [AStr port]])
        ++ [SerialFlush r] /\
      before_init (trace (step st (Op port) w')) = pre) /\
  value (step st (Op port) w') = Ret (set_fd (set_serialport st port) r).
Proof.
  apply Z.eqb_neq in Hopen.
  split; [apply main_port|].
  destruct st as [f sp br q e t bb].
  split.
  - exists (if f =? -1 then []
            else SerialClose f
                 :: (if q then []
                     else [Printf ("closed port %s" ++ C.nl)%string [AStr sp]])).
    destruct q; shell; destruct (f =? -1); simpl; rewrite Hopen; simpl; auto.
  - destruct q; shell; destruct (f =? -1); simpl; rewrite Hopen; reflexivity.
Qed.

Lemma port_flushed_right_after_open_witness :
  trace (step (initial zero) (Op "/dev/ttyUSB0") quiet_line)
  = [SerialInit "/dev/ttyUSB0" 9600 3;
     Printf ("opened port %s" ++ C.nl)%string [AStr "/dev/ttyUSB0"];
     SerialFlush 3].
Proof.
  pose proof (@port_flushed_right_after_open
                3 [Op "/dev/ttyUSB0"] zero quiet_line
                (initial zero) "/dev/ttyUSB0" quiet_line
                ltac:(discriminate)) as H.
  cbv zeta in H. destruct H as (_ & (pre & Htr & Hpre) & _).
  rewrite Htr, <- Hpre. reflexivity.
Defined.

(** ** C3: one port at a time *)

(** C3, as stated, at [-p /dev/ttyUSB1] given while descriptor 3 is open:
    before the new port is created the shell closes descriptor 3 and says
    so, and that is all; it does not flush it. *)
Lemma reopen_closes_without_flush :
  before_init (trace (step opened (Op "/dev/ttyUSB1") second_port))
  = [SerialClose 3; Printf ("closed port %s" ++ C.nl)%string [AStr "/dev/ttyUSB0"]]
  /\ ~ In (SerialFlush 3)
          (before_init (trace (step opened (Op "/dev/ttyUSB1") second_port))).
Proof.
  split; [reflexivity|].
  vm_compute. intros [H|[H|[]]]; discriminate H.
Qed.

(** C3, amended: at every point of every run at most one handle is open;
    [-p] given while a handle is open first closes that handle and then
    creates the new one, and the flush of that step goes to the new handle,
    once it is open. *)
Theorem one_port_closed_before_reopen
        (argc : Z) (opts : list opt) (junk : ascii) (w : world)
        (pre post : list event)
        (st : state) (port : string) (w' : world)
        (Hrun : trace (main argc opts junk w) = pre ++ post)
        (Hfd : fd st <> -1) :
  (List.length (live [] pre) <= 1)%nat /\
  let r := hd (-1) (w_init w') in
  trace (step st (Op port) w')
  = SerialClose (fd st)
    :: (if quiet st then []
        else [Printf ("closed port %s" ++ C.nl)%string [AStr (serialport st)]])
    ++ SerialInit port (baudrate st) r
    :: (if r =? -1
        then [FprintfStderr ("%s" ++ C.nl)%string [AStr "couldn't open port"]]
        else (if quiet st then []
              else [Printf ("opened port %s" ++ C.nl)%string [AStr port]])
             ++ [SerialFlush r]).
Proof.
  split.
  - destruct (main_port argc opts junk w) as [s Hs].
    rewrite Hrun, run_port_app in Hs.
    destruct (run_port (NoPort, None) pre) as [q|] eqn:Hpre; [|discriminate Hs].
    pose proof (@live_run_port (NoPort, None) q pre Hpre) as Hlive.
    simpl in Hlive. rewrite Hlive.
    destruct q as [[|h|h] cap]; simpl; lia.
  - apply Z.eqb_neq in Hfd.
    destruct st as [f sp br q e t bb]; simpl in Hfd |- *.
    destruct q; shell; rewrite Hfd; simpl; tests; reflexivity.
Qed.

Lemma one_port_closed_before_reopen_witness :
  (List.length
     (live [] [SerialInit "/dev/ttyUSB0" 9600 3;
               Printf ("opened port %s" ++ C.nl)%string [AStr "/dev/ttyUSB0"]])
   <= 1)%nat.
Proof.
  apply (@one_port_closed_before_reopen
           3 [Op "/dev/ttyUSB0"] zero quiet_line
           [SerialInit "/dev/ttyUSB0" 9600 3;
            Printf ("opened port %s" ++ C.nl)%string [AStr "/dev/ttyUSB0"]]
           [SerialFlush 3]
           opened "/dev/ttyUSB1" second_port).
  - reflexivity.
  - discriminate.
Defined.

(** * Further properties of the shell *)

(** ** The baud rate *)

(** X1: the baud rate starts at 9600; [-b] makes no call at all, it only
    stores the rate for the next [-p]: a [-p] after it opens the port at
    the new rate, a [-p] before it has opened the port at the old one. *)
Theorem baud_is_set_for_the_next_open
        (junk : ascii) (st : state) (optarg port : string) (w : world) :
  baudrate (initial junk) = 9600 /\
  step st (Ob optarg) w
  = mkOut [] w (Ret (set_baudrate st (C.to_int (C.strtol optarg)))) /\
  In (SerialInit port (C.to_int (C.strtol optarg)) (hd (-1) (w_init w)))
     (trace (getopt_loop [Ob optarg; Op port] st w)) /\
  In (SerialInit port (baudrate st) (hd (-1) (w_init w)))
     (trace (getopt_loop [Op port; Ob optarg] st w)).
Proof.
  destruct st as [f sp br q e t bb].
  repeat split; simpl; shell;
    destruct (f =? -1); destruct q; simpl; tests; simpl; auto 10.
Qed.

(** ** Sending *)

(** X3: [-n] hands exactly one byte to [serialport_writebyte], on the open
    port: the number read by [strtol], reduced modulo 256.  Two arguments
    whose numbers agree modulo 256 give the same run. *)
Theorem number_is_sent_modulo_256
        (st : state) (optarg optarg' : string) (w : world)
        (Hfd : fd st <> -1)
        (Hsame : C.to_int (C.strtol optarg) mod 256
                 = C.to_int (C.strtol optarg') mod 256) :
  let n := C.to_int (C.strtol optarg) in
  written (fd st) (trace (step st (On optarg) w)) = [C.to_uint8 n] /\
  C.of_uint8 (C.to_uint8 n) = n mod 256 /\
  0 <= C.of_uint8 (C.to_uint8 n) < 256 /\
  step st (On optarg) w = step st (On optarg') w.
Proof.
  intro n. apply Z.eqb_neq in Hfd.
  assert (Hbyte : C.of_uint8 (C.to_uint8 n) = n mod 256).
  { unfold C.of_uint8, C.to_uint8.
    pose proof (Z.mod_pos_bound n 256 eq_refl) as Hb.
    rewrite N_ascii_embedding by (apply N2Z.inj_lt; rewrite Z2N.id; lia).
    apply Z2N.id. lia. }
  split; [|split; [exact Hbyte|split]].
  - destruct st as [f sp br q e t bb]; simpl in Hfd |- *.
    shell. rewrite Hfd. simpl.
    destruct (hd 0 (w_writebyte w) =? -1); simpl; rewrite Z.eqb_refl;
      reflexivity.
  - rewrite Hbyte. apply Z.mod_pos_bound. reflexivity.
  - unfold step, C.to_uint8. fold n. unfold n. rewrite Hsame. reflexivity.
Qed.

Lemma number_is_sent_modulo_256_witness :
  written 3 (trace (step opened (On "300") quiet_line)) = [","%char] /\
  step opened (On "300") quiet_line = step opened (On "44") quiet_line.
Proof.
  pose proof (@number_is_sent_modulo_256 opened "300" "44" quiet_line
                ltac:(discriminate) eq_refl) as H.
  cbv zeta in H. destruct H as (Hw & _ & _ & Hs).
  split; [exact Hw|exact Hs].
Defined.

(** X4: [-S] is [-s] with a newline added to the string: the two make the
    same calls, print the same and leave the same state.  Each hands its
    string to [serialport_write] in one call. *)
Theorem sendline_is_send_with_newline
        (st : state) (optarg : string) (w : world) (Hfd : fd st <> -1) :
  step st (OS optarg) w = step st (Os (optarg ++ C.nl)%string) w /\
  sent_strings (fd st) (trace (step st (Os optarg) w)) = [optarg] /\
  sent_strings (fd st) (trace (step st (OS optarg) w))
  = [(optarg ++ C.nl)%string].
Proof.
  apply Z.eqb_neq in Hfd.
  destruct st as [f sp br q e t bb]; simpl in Hfd |- *.
  split; [reflexivity|].
  split; destruct q; shell; rewrite Hfd; simpl;
    destruct (hd 0 (w_write w) =? -1); simpl; rewrite Z.eqb_refl;
    reflexivity.
Qed.

Lemma sendline_is_send_with_newline_witness :
  sent_strings 3 (trace (step opened (OS "hello") quiet_line))
  = [("hello" ++ C.nl)%string].
Proof.
  apply (@sendline_is_send_with_newline opened "hello" quiet_line).
  discriminate.
Defined.


Lemma send_lines_all (lines : list string) (fd : Z) (q : bool) (rc : Z)
      (w : world) :
  let o := send_lines lines fd q rc w in
  sent_strings fd (trace o) = lines /\
  value o = Ret (last (first_answers (List.length lines) (w_write w)) rc) /\
  w_stdin (final o) = w_stdin w.
Proof.
  revert rc w.
  induction lines as [|buf rest IH]; intros rc w; simpl.
  - destruct q; shell; auto.
  - destruct q; shell; rewrite ?Z.eqb_refl;
      match goal with
      | |- context [send_lines rest fd ?q' ?rc' ?w'] =>
          destruct (IH rc' w') as (Hs & Hv & Hi);
          destruct (send_lines rest fd q' rc' w') as [t' w'' v'];
          simpl in Hs, Hv, Hi |- *; rewrite ?Z.eqb_refl; simpl;
          rewrite Hs, Hv, Hi
      end;
      (repeat split; try reflexivity);
      rewrite <- (last_cons (hd 0 (w_write w))
                            (first_answers (List.length rest) (tl (w_write w)))
                            rc);
      reflexivity.
Qed.

(** X5: [-i] hands every line of the standard input to [serialport_write],
    in order, one call a line, and reads the input to its end.  Only the
    answer to the last line decides how it ends: with status 1 when that
    answer is -1, and also when there was no line at all; a write that
    failed on an earlier line goes unnoticed. *)
Theorem stdin_lines_are_sent_in_order
        (st : state) (w : world) (Hfd : fd st <> -1) :
  let lines := w_stdin w in
  let o := step st Oi w in
  sent_strings (fd st) (trace o) = lines /\
  status o
  = (if last (first_answers (List.length lines) (w_write w)) (-1) =? -1
     then Some 1 else None) /\
  (lines = [] -> status o = Some 1) /\
  w_stdin (final o) = [].
Proof.
  intros lines o. subst lines o.
  apply Z.eqb_neq in Hfd.
  destruct st as [f sp br q e t bb]; simpl in Hfd |- *.
  shell. rewrite Hfd. simpl.
  destruct (@send_lines_all (w_stdin w) f q (-1) (set_stdin w []))
    as (Hs & Hv & Hi).
  simpl in Hs, Hv, Hi.
  destruct (send_lines (w_stdin w) f q (-1) (set_stdin w [])) as [t' w' v'].
  simpl in Hs, Hv, Hi. subst v'. simpl.
  assert (Hnone : w_stdin w = [] ->
                  (last (first_answers (List.length (w_stdin w)) (w_write w))
                        (-1) =? -1) = true)
    by (intros ->; reflexivity).
  destruct (last (first_answers (List.length (w_stdin w)) (w_write w)) (-1)
            =? -1) eqn:Hlast; simpl;
    unfold sent_strings in *; rewrite ?flat_map_app; simpl;
    rewrite ?app_nil_r; repeat split; auto.
  intro H. apply Hnone in H. discriminate H.
Qed.

Lemma stdin_lines_are_sent_in_order_witness :
  sent_strings 3 (trace (step opened Oi three_lines)) = ["one"; "two"; "three"]
  /\ status (step opened Oi three_lines) = None.
Proof.
  pose proof (@stdin_lines_are_sent_in_order opened three_lines
                ltac:(discriminate)) as H.
  cbv zeta in H. destruct H as (Hs & Hst & _).
  split; [exact Hs|exact Hst].
Defined.

(** ** Files that cannot be opened *)

(** X7: when the input file of [-f] or the capture file of [-v] cannot be
    opened, the shell reports it with [perror] and goes on to the next
    option with its state unchanged: no call reaches the serial port and
    the process does not end. *)
Theorem unopenable_file_is_skipped
        (st : state) (path : string) (w : world)
        (Hfd : fd st <> -1)
        (Hfopen : hd None (w_fopen w) = None)
        (Hopen : hd (-1) (w_open w) < 0) :
  trace (step st (Of path) w)
  = [Clock (hd 0 (w_time w)); Fopen path false;
     Perror "error opening input file"] /\
  value (step st (Of path) w) = Ret st /\
  trace (step st (Ov path) w)
  = [Open path (hd (-1) (w_open w)); Perror "error opening output file"] /\
  value (step st (Ov path) w) = Ret st.
Proof.
  apply Z.eqb_neq in Hfd. apply Z.ltb_lt in Hopen.
  destruct st as [f sp br q e t bb]; simpl in Hfd |- *.
  repeat split; shell; rewrite Hfd; simpl;
    rewrite ?Hfopen, ?Hopen; reflexivity.
Qed.

Lemma unopenable_file_is_skipped_witness :
  value (step opened (Of "missing") quiet_line) = Ret opened /\
  value (step opened (Ov "/nowhere/out") quiet_line) = Ret opened.
Proof.
  pose proof (@unopenable_file_is_skipped opened "missing" quiet_line
                ltac:(discriminate) eq_refl ltac:(reflexivity)) as H1.
  pose proof (@unopenable_file_is_skipped opened "/nowhere/out" quiet_line
                ltac:(discriminate) eq_refl ltac:(reflexivity)) as H2.
  split; [apply H1|apply H2].
Defined.

(** ** What an option changes *)

(** X8: an option changes only its own variable.  The port ([fd] and its
    name) is changed by [-p] alone, the baud rate by [-b], the quiet flag
    by [-q], the end-of-line character by [-e], the time-out by [-t]; so
    the settings made before a port is reopened, or before a file is
    relayed, are still in force afterwards. *)
Theorem option_changes_its_own_variable
        (st st' : state) (o : opt) (w : world)
        (Hret : value (step st o w) = Ret st') :
  ((forall port, o <> Op port) ->
   fd st' = fd st /\ serialport st' = serialport st) /\
  ((forall arg, o <> Ob arg) -> baudrate st' = baudrate st) /\
  (o <> Oq -> quiet st' = quiet st) /\
  ((forall arg, o <> Oe arg) -> eolchar st' = eolchar st) /\
  ((forall arg, o <> Ot arg) -> timeout st' = timeout st).
Proof.
  destruct st as [f sp br q e t bb].
  destruct o; destruct q; revert Hret; shell; tests;
    repeat (loop_returns; tests);
    intro Hret; inversion Hret; subst; simpl;
    repeat split; intros; try reflexivity;
    exfalso;
    match goal with
    | H : forall _, _ <> _ |- _ => eapply H; reflexivity
    | H : _ <> _ |- _ => apply H; reflexivity
    end.
Qed.

Lemma option_changes_its_own_variable_witness :
  timeout (set_fd (set_serialport (set_timeout opened 250) "/dev/ttyUSB1") 4)
  = 250.
Proof.
  apply (@option_changes_its_own_variable
           (set_timeout opened 250)
           (set_fd (set_serialport (set_timeout opened 250) "/dev/ttyUSB1") 4)
           (Op "/dev/ttyUSB1") second_port eq_refl).
  discriminate.
Defined.

Lemma read_timeouts_Forall (P : Z -> Prop) (tr : list event) :
  Forall (fun e => Forall P (read_timeouts [e])) tr ->
  Forall P (read_timeouts tr).
Proof.
  induction 1 as [|e tr He _ IH]; [constructor|].
  assert (E : read_timeouts (e :: tr) = read_timeouts [e] ++ read_timeouts tr)
    by (unfold read_timeouts; simpl; rewrite app_nil_r; reflexivity).
  rewrite E. apply Forall_app. split; assumption.
Qed.

(** X11: the time-out of [-t] does not reach the reads of [-f] and [-v]:
    whatever time-out is in force the two make the same calls, the file
    reads with 10000 and the reads of the capture with 5000 milliseconds. *)
Theorem relay_and_capture_ignore_timeout
        (st : state) (t : Z) (path : string) (w : world) :
  trace (step (set_timeout st t) (Of path) w) = trace (step st (Of path) w) /\
  trace (step (set_timeout st t) (Ov path) w) = trace (step st (Ov path) w) /\
  Forall (fun e => match e with
                   | SerialReadByteFile t' _ _ => t' = 10000
                   | _ => True
                   end) (trace (step st (Of path) w)) /\
  Forall (fun ms => ms = 5000) (read_timeouts (trace (step st (Ov path) w))).
Proof.
  destruct st as [f sp br q e t0 bb].
  repeat split.
  - destruct q; shell; tests; repeat (loop_returns; tests); reflexivity.
  - destruct q; shell; tests; repeat (loop_returns; tests); reflexivity.
  - destruct q; shell; tests;
      try match goal with
          | |- context [stream_loop ?i ?d ?b ?a ?w'] =>
              pose proof (@stream_loop_events
                            (fun e => match e with
                                      | SerialReadByteFile t' _ _ => t' = 10000
                                      | _ => True
                                      end) i d b a w'
                            ltac:(reflexivity) ltac:(intros; exact I)
                            ltac:(intros; exact I) I I I) as Hl
          end;
      repeat (loop_returns; tests);
      repeat (first [apply Forall_cons; [exact I|] | apply Forall_nil
                    | apply Forall_app; split]); auto.
  - destruct q; shell; tests;
      try match goal with
          | |- context [save_loop ?i ?d ?o ?b ?a ?w'] =>
              pose proof (@save_loop_events
                            (fun e => Forall (fun ms => ms = 5000)
                                             (read_timeouts [e]))
                            i d o b a w'
                            ltac:(intros; repeat constructor)
                            ltac:(intros; constructor)
                            ltac:(intros; constructor)
                            ltac:(constructor) ltac:(constructor)) as Hl
          end;
      repeat (loop_returns; tests);
      unfold read_timeouts; simpl; rewrite ?flat_map_app; simpl;
      repeat (first [apply Forall_cons; [reflexivity|] | apply Forall_nil
                    | apply Forall_app; split]); auto;
      simpl in Hl; apply read_timeouts_Forall in Hl; exact Hl.
Qed.

(** ** The quiet flag *)

Lemma send_lines_quiet (lines : list string) (fd : Z) (rc : Z) (w : world) :
  observable (trace (send_lines lines fd true rc w)) = [].
Proof.
  revert rc w.
  induction lines as [|buf rest IH]; intros rc w; simpl; shell;
    [reflexivity|].
  run_loop IH; exact Hloop.
Qed.

Lemma step_quiet (st : state) (o : opt) (w : world) :
  quiet st = true ->
  (forall st', value (step st o w) = Ret st' -> quiet st' = true) /\
  (only_notices o = true -> status (step st o w) = None ->
   observable (trace (step st o w)) = []).
Proof.
  intro Hq. destruct st as [f sp br q e t bb]. simpl in Hq. subst q.
  split.
  - intros st'.
    destruct o; shell; tests; repeat (loop_returns; tests);
      intro H; inversion H; reflexivity.
  - intros Hn.
    destruct o; try discriminate Hn; shell; tests;
      try (intro H; discriminate H); try (intros _; reflexivity).
    match goal with
    | |- context [send_lines ?l ?d true ?rc ?w'] =>
        pose proof (send_lines_quiet l d rc w') as Hl;
        destruct (send_lines_returns l d true rc w') as [r Hr];
        destruct (send_lines l d true rc w') as [t' w'' v'];
        simpl in Hl, Hr; subst v'; simpl
    end.
    unfold observable in *.
    tests; simpl; intro H; try discriminate H;
      rewrite ?filter_app, ?Hl; reflexivity.
Qed.

(** X2: nothing turns the quiet flag off again: once [-q] has been given
    it holds for the rest of the command line.  While it holds, the options
    that only print notices ([-e], [-t], [-d], [-b], [-p], [-n], [-s],
    [-S], [-i], [-F]) print nothing at all as long as they do not end the
    process. *)
Theorem quiet_stays_and_silences
        (st st' : state) (opts : list opt) (w : world)
        (Hq : quiet st = true)
        (Hrun : value (getopt_loop opts st w) = Ret st') :
  quiet st' = true /\
  (forallb only_notices opts = true ->
   observable (trace (getopt_loop opts st w)) = []) /\
  value (step st Oq w) = Ret st.
Proof.
  split; [|split].
  - revert st w Hq Hrun.
    induction opts as [|o rest IH]; intros st w Hq Hrun; simpl in Hrun.
    + inversion Hrun; subst. exact Hq.
    + rewrite value_bind in Hrun.
      destruct (@step_quiet st o w Hq) as [Hkeep _].
      destruct (value (step st o w)) as [st1|s] eqn:Hv; [|discriminate Hrun].
      exact (IH st1 _ (Hkeep st1 eq_refl) Hrun).
  - revert st w Hq Hrun.
    induction opts as [|o rest IH]; intros st w Hq Hrun Hall; simpl;
      [reflexivity|].
    simpl in Hrun, Hall. apply andb_true_iff in Hall. destruct Hall as [Ho Hr].
    rewrite value_bind in Hrun. rewrite trace_bind.
    destruct (@step_quiet st o w Hq) as [Hkeep Hsilent].
    unfold status in Hsilent.
    destruct (value (step st o w)) as [st1|s] eqn:Hv; [|discriminate Hrun].
    unfold observable in *. rewrite filter_app.
    rewrite (Hsilent Ho eq_refl).
    exact (IH st1 _ (Hkeep st1 eq_refl) Hrun Hr).
  - destruct st as [f sp br q e t bb]. simpl in Hq. subst q. reflexivity.
Qed.

Lemma quiet_stays_and_silences_witness :
  observable
    (trace (getopt_loop [Ot "100"; Os "hello"; OF] (set_quiet opened true)
                        quiet_line)) = [].
Proof.
  apply (@quiet_stays_and_silences
           (set_quiet opened true) (set_timeout (set_quiet opened true) 100)
           [Ot "100"; Os "hello"; OF] quiet_line eq_refl eq_refl).
  reflexivity.
Defined.

(** ** The standard error stream *)


Lemma last_app_cons {A : Type} (l1 l2 : list A) (x d : A) :
  last (l1 ++ x :: l2) d = last (x :: l2) d.
Proof.
  induction l1 as [|y l1 IH]; [reflexivity|].
  simpl app. rewrite <- IH.
  destruct l1; reflexivity.
Qed.













(** ** The capture of [-v] *)

Lemma save_loop_capture (data : list (Z * ascii)) (fd ofile : Z) (b : ascii)
      (a : Z) (w : world) :
  w_read_byte w = data_answers data ->
  Forall (fun d => 0 < fst d) data ->
  Forall (fun r => r <= 0) (w_writebyte w) ->
  let o := save_loop (data_answers data) fd ofile b a w in
  written ofile (trace o) = map snd data /\
  echoed (trace o) = map snd data /\
  value o = Ret (last (map snd data) b).
Proof.
  unfold data_answers.
  revert b a w.
  induction data as [|[rc c] rest IH]; intros b a w Hline Hdata Hwrite; simpl.
  - unfold save_body. shell. rewrite Hline. simpl. auto.
  - inversion Hdata as [|d l Hrc Hrest]; subst. simpl in Hrc.
    assert (H0 : (hd 0 (w_writebyte w) <=? 0) = true)
      by (apply Z.leb_le; destruct Hwrite; [reflexivity|assumption]).
    assert (Htl : Forall (fun r => r <= 0) (tl (w_writebyte w)))
      by (destruct Hwrite; [constructor|assumption]).
    apply Z.leb_gt in Hrc.
    unfold save_body. shell. rewrite Hline. simpl. rewrite Hrc. simpl.
    rewrite H0.
    destruct (Z.rem a 60 =? 0); simpl;
      match goal with
      | |- context [save_loop _ fd ofile ?b' ?a' ?w'] =>
          destruct (IH b' a' w' eq_refl Hrest Htl) as (Hw & He & Hv);
          destruct (save_loop (map (fun d => (fst d, Some (snd d))) rest)
                              fd ofile b' a' w') as [t' w'' v'];
          simpl in Hw, He, Hv; subst v'; simpl
      end;
      rewrite ?Z.eqb_refl; simpl; rewrite ?Hw, ?He;
      (repeat split; try reflexivity);
      rewrite <- (last_cons c (map snd rest) b); reflexivity.
Qed.

(** X6: [-v] hands every byte that arrives on the port to
    [serialport_writebyte] on the capture file, in the order of arrival,
    until a read brings nothing; the first byte is announced by "found
    input." and not echoed, the others are echoed on the console.  A write
    the capture file refuses (answer -1) does not stop the capture and does
    not end the process. *)
Theorem capture_saves_every_byte
        (st : state) (path : string) (d : Z * ascii) (rest : list (Z * ascii))
        (w : world)
        (Hfd : fd st <> -1)
        (Hopen : 0 <= hd (-1) (w_open w))
        (Hline : w_read_byte w = data_answers (d :: rest))
        (Hdata : Forall (fun x => 0 < fst x) (d :: rest))
        (Hwrite : Forall (fun r => r <= 0) (w_writebyte w)) :
  let o := step st (Ov path) w in
  let ofile := hd (-1) (w_open w) in
  written ofile (trace o) = map snd (d :: rest) /\
  echoed (trace o) = map snd rest /\
  value o = Ret (set_b st (last (map snd rest) (snd d))) /\
  last (trace o) Fclose = Close ofile.
Proof.
  intros o ofile. subst o ofile.
  apply Z.eqb_neq in Hfd. apply Z.ltb_ge in Hopen.
  inversion Hdata as [|x l Hrc Hrest]; subst. apply Z.leb_gt in Hrc.
  assert (H0 : (hd 0 (w_writebyte w) <=? 0) = true)
    by (apply Z.leb_le; destruct Hwrite; [reflexivity|assumption]).
  assert (Htl : Forall (fun r => r <= 0) (tl (w_writebyte w)))
    by (destruct Hwrite; [constructor|assumption]).
  destruct d as [rc c]. simpl in Hrc.
  destruct st as [f sp br q e t bb]; simpl in Hfd |- *.
  unfold data_answers in Hline. simpl in Hline.
  destruct q; shell; rewrite Hfd; simpl; rewrite Hopen; simpl;
    rewrite Hline; simpl; rewrite Hrc; simpl; rewrite H0;
    match goal with
    | |- context [save_loop ?l ?fd' ?ofile' ?b' ?a' ?w'] =>
        pose proof (@save_loop_capture rest fd' ofile' b' a' w' eq_refl
                                       Hrest Htl) as H;
        cbv zeta in H; change (data_answers rest) with l in H;
        destruct H as (Hw & He & Hv);
        destruct (save_loop l fd' ofile' b' a' w') as [t' w'' v'];
        simpl in Hw, He, Hv; subst v'; simpl
    end;
    unfold written, echoed in *;
    repeat (rewrite ?flat_map_app, ?Z.eqb_refl; simpl);
    rewrite ?Hw, ?He, ?app_nil_r;
    (repeat split; try reflexivity);
    rewrite ?last_app_cons; first [reflexivity | destruct t'; reflexivity].
Qed.

Lemma capture_saves_every_byte_witness :
  written 4 (trace (step opened (Ov "capture.bin") three_bytes_arrive))
  = ["a"%char; "b"%char; "c"%char] /\
  echoed (trace (step opened (Ov "capture.bin") three_bytes_arrive))
  = ["b"%char; "c"%char].
Proof.
  assert (Hdata : Forall (fun x : Z * ascii => 0 < fst x)
                         [(1, "a"%char); (1, "b"%char); (1, "c"%char)])
    by (repeat constructor).
  assert (Hwrite : Forall (fun r => r <= 0) (w_writebyte three_bytes_arrive))
    by (repeat constructor; simpl; lia).
  pose proof (@capture_saves_every_byte
                opened "capture.bin" (1, "a"%char)
                [(1, "b"%char); (1, "c"%char)] three_bytes_arrive
                ltac:(discriminate) ltac:(simpl; lia) eq_refl Hdata Hwrite)
    as H.
  cbv zeta in H. destruct H as (Hw & He & _).
  split; [exact Hw|exact He].
Defined.

(** ** A port that refuses a byte of the relay *)

Lemma stream_loop_refused (pre : list (Z * ascii)) (d : Z * ascii)
      (post : list answer) (fd : Z) (b : ascii) (a : Z) (w : world)
      (r : Z) (ws : list Z) :
  Forall (fun x => is_data (fst x)) (pre ++ [d]) ->
  w_writebyte w = repeat 0 (List.length pre) ++ r :: ws ->
  r <> 0 ->
  let o := stream_loop (data_answers (pre ++ [d]) ++ post) fd b a w in
  written fd (trace o) = map snd (pre ++ [d]) /\
  echoed (trace o) = map snd (pre ++ [d]) /\
  List.length (filter is_file_read (trace o)) = S (List.length pre) /\
  exists a', value o = Ret (snd d, a').
Proof.
  revert b a w.
  induction pre as [|[rc c] pre IH]; intros b a w Hdata Hwrite Hr; simpl.
  - destruct d as [rc c]. simpl in Hwrite |- *.
    inversion Hdata as [|x l [Hrc Hrc2] _]; subst. simpl in Hrc, Hrc2.
    apply Z.ltb_ge in Hrc. apply Z.eqb_neq in Hrc2. apply Z.eqb_neq in Hr.
    unfold stream_body. shell. rewrite Hrc, Hrc2, Hwrite. simpl.
    rewrite Hr.
    unfold written, echoed.
    destruct (Z.rem a 60 =? 0); simpl; rewrite ?Z.eqb_refl; simpl; eauto 10.
  - simpl in Hdata, Hwrite.
    inversion Hdata as [|x l [Hrc Hrc2] Hrest]; subst. simpl in Hrc, Hrc2.
    apply Z.ltb_ge in Hrc. apply Z.eqb_neq in Hrc2.
    unfold stream_body. shell. rewrite Hrc, Hrc2, Hwrite. simpl.
    destruct (Z.rem a 60 =? 0); simpl;
      match goal with
      | |- context [stream_loop ?l fd ?b' ?a' ?w'] =>
          destruct (IH b' a' w' Hrest eq_refl Hr) as (Hw & He & Hn & a1 & Hv);
          destruct (stream_loop l fd b' a' w') as [t' w'' v'];
          simpl in Hw, He, Hn, Hv; subst v'; simpl
      end;
      unfold written, echoed in *;
      repeat (rewrite ?flat_map_app, ?filter_app, ?Z.eqb_refl; simpl);
      rewrite ?Hw, ?He, ?Hn; eauto 10.
Qed.

Lemma file_reads_around (st : state) (path : string) (tr : list event)
      (a t0 t1 : Z) :
  filter is_file_read (prologue st path t0 ++ tr ++ epilogue st a t0 t1)
  = filter is_file_read tr.
Proof.
  rewrite !filter_app.
  unfold prologue, epilogue. destruct (quiet st); simpl; apply app_nil_r.
Qed.

(** X12: the relay of [-f] gives up at the first byte the port does not
    take with answer 0: that byte is the last one read from the file, echoed
    and written; the rest of the file is never read.  The option ends as
    after a whole file, by closing the file and going on to the next
    option. *)
Theorem relay_stops_at_refused_byte
        (st : state) (path : string) (pre : list (Z * ascii)) (d : Z * ascii)
        (post : list answer) (r : Z) (ws : list Z) (w : world)
        (Hfd : fd st <> -1)
        (Hopen : hd None (w_fopen w)
                 = Some (data_answers (pre ++ [d]) ++ post))
        (Hdata : Forall (fun x => is_data (fst x)) (pre ++ [d]))
        (Hwrite : w_writebyte w = repeat 0 (List.length pre) ++ r :: ws)
        (Hr : r <> 0) :
  let o := step st (Of path) w in
  written (fd st) (trace o) = map snd (pre ++ [d]) /\
  echoed (trace o) = map snd (pre ++ [d]) /\
  List.length (filter is_file_read (trace o)) = S (List.length pre) /\
  value o = Ret (set_b st (snd d)) /\
  last (trace o) (Clock 0) = Fclose.
Proof.
  intro o. subst o.
  destruct (@step_f_unfold st path w _ Hfd Hopen) as [Htr _].
  cbv zeta in Htr.
  destruct (@stream_loop_refused pre d post (fd st) (b st) 0 (at_loop w) r ws
              Hdata Hwrite Hr) as (Hw & He & Hn & a' & Hv).
  cbv zeta in Hw, He, Hn, Hv.
  rewrite Htr, written_around, echoed_around, file_reads_around.
  repeat split; try assumption.
  - apply Z.eqb_neq in Hfd.
    destruct st as [f sp br q e t bb]; simpl in *.
    unfold at_loop in Hv.
    destruct q; shell; rewrite Hfd; simpl; rewrite Hopen; simpl;
      match goal with
      | |- context [stream_loop ?l ?fd' ?b' ?a0 ?w'] =>
          destruct (stream_loop l fd' b' a0 w') as [t' w'' v'];
          simpl in Hv; subst v'; reflexivity
      end.
  - unfold epilogue. rewrite !app_assoc. apply last_last.
Qed.

Lemma relay_stops_at_refused_byte_witness :
  written 3 (trace (step opened (Of "sketch.hex") port_refuses_second))
  = ["a"%char; "b"%char] /\
  List.length (filter is_file_read
                 (trace (step opened (Of "sketch.hex") port_refuses_second)))
  = 2%nat.
Proof.
  assert (Hdata : Forall (fun x : Z * ascii => is_data (fst x))
                         ([(0, "a"%char)] ++ [(0, "b"%char)]))
    by (repeat constructor; simpl; lia).
  pose proof (@relay_stops_at_refused_byte
                opened "sketch.hex" [(0, "a"%char)] (0, "b"%char)
                [(0, Some "c"%char)] (-1) [0] port_refuses_second
                ltac:(discriminate) eq_refl Hdata eq_refl ltac:(lia)) as H.
  cbv zeta in H. destruct H as (Hw & _ & Hn & _).
  split; [exact Hw|exact Hn].
Defined.

(** ** The files of a run *)

Lemma run_files_app (s : held) (t1 t2 : list event) :
  run_files s (t1 ++ t2)
  = match run_files s t1 with
    | Some s' => run_files s' t2
    | None => None
    end.
Proof.
  revert s. induction t1 as [|e t1 IH]; intro s; simpl; [reflexivity|].
  destruct (file_step s e); [apply IH|reflexivity].
Qed.

Lemma run_files_stable (s : held) (tr : list event) :
  Forall (fun e => file_step s e = Some s) tr -> run_files s tr = Some s.
Proof.
  induction 1 as [|e tr He _ IH]; simpl; [reflexivity|].
  rewrite He. exact IH.
Qed.

Lemma stream_loop_files (ifile : list answer) (fd : Z) (b : ascii) (a : Z)
      (w : world) :
  run_files Input (trace (stream_loop ifile fd b a w)) = Some Input.
Proof. apply run_files_stable, stream_loop_events; reflexivity. Qed.

Lemma save_loop_files (line : list answer) (fd ofile : Z) (b : ascii)
      (a : Z) (w : world) :
  run_files (Capture ofile) (trace (save_loop line fd ofile b a w))
  = Some (Capture ofile).
Proof. apply run_files_stable, save_loop_events; reflexivity. Qed.

Lemma send_lines_files (lines : list string) (fd : Z) (q : bool) (rc : Z)
      (w : world) :
  run_files NoFile (trace (send_lines lines fd q rc w)) = Some NoFile.
Proof. apply run_files_stable, send_lines_events; reflexivity. Qed.

(** Names the outcome of a loop call in the goal, with what the loop does
    to the files. *)
Ltac files_loop :=
  match goal with
  | |- context [stream_loop ?i ?d ?b ?a ?w] =>
      let Hp := fresh "Hfiles" in
      let Hr := fresh "Hret" in
      pose proof (stream_loop_files i d b a w) as Hp;
      destruct (stream_loop_returns i d b a w) as [[? ?] Hr];
      destruct (stream_loop i d b a w) as [? ? ?]; simpl in Hp, Hr; subst
  | |- context [save_loop ?i ?d ?o ?b ?a ?w] =>
      let Hp := fresh "Hfiles" in
      let Hr := fresh "Hret" in
      pose proof (save_loop_files i d o b a w) as Hp;
      destruct (save_loop_returns i d o b a w) as [? Hr];
      destruct (save_loop i d o b a w) as [? ? ?]; simpl in Hp, Hr; subst
  | |- context [send_lines ?i ?d ?q ?rc ?w] =>
      let Hp := fresh "Hfiles" in
      let Hr := fresh "Hret" in
      pose proof (send_lines_files i d q rc w) as Hp;
      destruct (send_lines_returns i d q rc w) as [? Hr];
      destruct (send_lines i d q rc w) as [? ? ?]; simpl in Hp, Hr; subst
  end.

Ltac files_run :=
  repeat (simpl; unfold file_step;
          rewrite ?Z.eqb_refl, ?run_files_app;
          repeat match goal with
                 | H : run_files _ _ = _ |- _ => rewrite H
                 end;
          known_tests).

(** Every option leaves the files closed, also when it ends the process. *)
Lemma step_files (st : state) (o : opt) (w : world) :
  run_files NoFile (trace (step st o w)) = Some NoFile.
Proof.
  destruct st as [f sp br q e t bb].
  destruct o; destruct q; shell; tests;
    repeat (files_loop; simpl; tests); try congruence; files_run;
    first [reflexivity | exfalso; arith; congruence].
Qed.

Lemma getopt_loop_files (opts : list opt) (st : state) (w : world) :
  run_files NoFile (trace (getopt_loop opts st w)) = Some NoFile.
Proof.
  revert st w.
  induction opts as [|o rest IH]; intros st w; simpl; [reflexivity|].
  rewrite trace_bind.
  destruct (value (step st o w)) as [st'|x].
  - rewrite run_files_app, step_files. apply IH.
  - apply step_files.
Qed.

(** X13: on every run, whatever the outside routines answer and whatever
    status the run ends with, the files are used in turn: a file is opened
    only while none is open, the input file is read and closed only while
    it is open, the capture file is closed by the descriptor it was opened
    as, and when the process exits no file is left open. *)
Theorem files_are_closed_on_every_run
        (argc : Z) (opts : list opt) (junk : ascii) (w : world) :
  run_files NoFile (trace (main argc opts junk w)) = Some NoFile.
Proof.
  unfold main. destruct (argc =? 1); simpl; [reflexivity|].
  rewrite trace_bind. simpl. rewrite trace_bind.
  pose proof (getopt_loop_files opts (initial junk) w) as H.
  destruct (value (getopt_loop opts (initial junk) w)); simpl;
    rewrite ?app_nil_r; exact H.
Qed.

(** ** The delay *)

(** X14: [-d] sleeps a thousand microseconds for each millisecond asked,
    for every delay from 0 to 2147483 ms, the largest whose microseconds
    fit an [int]; it needs no open port, calls nothing else outside and
    changes no variable of the shell. *)
Theorem delay_sleeps_the_milliseconds_asked
        (st : state) (optarg : string) (w : world)
        (Hn : 0 <= C.strtol optarg <= longest_delay) :
  let o := step st (Od optarg) w in
  let n := C.strtol optarg in
  slept (trace o) = [n * 1000] /\
  trace o
  = (if quiet st then []
     else [Printf ("sleep %d millisecs" ++ C.nl)%string [AInt n]])
    ++ [Usleep (n * 1000)] /\
  value o = Ret st /\
  final o = w.
Proof.
  intros o n. subst o n. unfold longest_delay in Hn.
  assert (H1 : C.to_int (C.strtol optarg) = C.strtol optarg)
    by (unfold C.to_int; rewrite Z.mod_small; lia).
  assert (H2 : C.to_int (C.strtol optarg * 1000) = C.strtol optarg * 1000)
    by (unfold C.to_int; rewrite Z.mod_small; lia).
  destruct st as [f sp br q e t bb].
  destruct q; shell; rewrite H1, H2; auto.
Qed.

Lemma delay_sleeps_the_milliseconds_asked_witness :
  slept (trace (step (initial zero) (Od "2000") quiet_line)) = [2000000].
Proof.
  apply (@delay_sleeps_the_milliseconds_asked (initial zero) "2000" quiet_line).
  vm_compute. split; discriminate.
Defined.

(** ** The help *)

(** X15: started without any argument, or with [-h] as its first option,
    the program prints the help text and exits with status 0; it calls no
    outside routine, and the options that follow are not looked at. *)
Theorem help_is_all_that_happens
        (argc : Z) (opts : list opt) (junk : ascii) (w : world) :
  main 1 opts junk w = mkOut [Printf usage_text []] w (Exit 0) /\
  main argc (Oh :: opts) junk w = mkOut [Printf usage_text []] w (Exit 0).
Proof.
  split; unfold main; [|destruct (argc =? 1)]; reflexivity.
Qed.

(** ** The port at the exit *)

Lemma live_app (l : list Z) (t1 t2 : list event) :
  live l (t1 ++ t2) = live (live l t1) t2.
Proof.
  revert l. induction t1 as [|e t1 IH]; intro l; [reflexivity|].
  destruct e; simpl; apply IH.
Qed.

Lemma live_untouched (tr : list event) :
  Forall (fun e => (forall l, live l [e] = l) /\ opened_ports [e] = []) tr ->
  (forall l, live l tr = l) /\ opened_ports tr = [].
Proof.
  induction 1 as [|e tr [He Hp] _ [IHl IHp]]; [split; reflexivity|].
  split.
  - intro l. change (e :: tr) with ([e] ++ tr).
    rewrite live_app, He. apply IHl.
  - change (e :: tr) with ([e] ++ tr).
    unfold opened_ports in *. rewrite flat_map_app, Hp, IHp. reflexivity.
Qed.

Lemma stream_loop_live (ifile : list answer) (fd : Z) (b : ascii) (a : Z)
      (w : world) :
  (forall l, live l (trace (stream_loop ifile fd b a w)) = l) /\
  opened_ports (trace (stream_loop ifile fd b a w)) = [].
Proof.
  apply live_untouched, stream_loop_events; intros; split; reflexivity.
Qed.

Lemma save_loop_live (line : list answer) (fd ofile : Z) (b : ascii)
      (a : Z) (w : world) :
  (forall l, live l (trace (save_loop line fd ofile b a w)) = l) /\
  opened_ports (trace (save_loop line fd ofile b a w)) = [].
Proof.
  apply live_untouched, save_loop_events; intros; split; reflexivity.
Qed.

Lemma send_lines_live (lines : list string) (fd : Z) (q : bool) (rc : Z)
      (w : world) :
  (forall l, live l (trace (send_lines lines fd q rc w)) = l) /\
  opened_ports (trace (send_lines lines fd q rc w)) = [].
Proof.
  apply live_untouched, send_lines_events; intros; split; reflexivity.
Qed.

(** Names the outcome of a loop call in the goal, with the fact that the
    loop neither opens nor closes a port. *)
Ltac live_loop :=
  match goal with
  | |- context [stream_loop ?i ?d ?b ?a ?w] =>
      let Hl := fresh "Hlive" in
      let Hp := fresh "Hports" in
      let Hr := fresh "Hret" in
      destruct (stream_loop_live i d b a w) as [Hl Hp];
      destruct (stream_loop_returns i d b a w) as [[? ?] Hr];
      destruct (stream_loop i d b a w) as [? ? ?];
      simpl in Hl, Hp, Hr; subst
  | |- context [save_loop ?i ?d ?o ?b ?a ?w] =>
      let Hl := fresh "Hlive" in
      let Hp := fresh "Hports" in
      let Hr := fresh "Hret" in
      destruct (save_loop_live i d o b a w) as [Hl Hp];
      destruct (save_loop_returns i d o b a w) as [? Hr];
      destruct (save_loop i d o b a w) as [? ? ?];
      simpl in Hl, Hp, Hr; subst
  | |- context [send_lines ?i ?d ?q ?rc ?w] =>
      let Hl := fresh "Hlive" in
      let Hp := fresh "Hports" in
      let Hr := fresh "Hret" in
      destruct (send_lines_live i d q rc w) as [Hl Hp];
      destruct (send_lines_returns i d q rc w) as [? Hr];
      destruct (send_lines i d q rc w) as [? ? ?];
      simpl in Hl, Hp, Hr; subst
  end.

Lemma kept_last (l1 l2 : list Z) (y : Z) :
  kept (l1 ++ y :: l2) = [last l2 y].
Proof.
  destruct l1 as [|x l1]; simpl; [reflexivity|].
  rewrite last_app_cons, last_cons. reflexivity.
Qed.

Lemma kept_app (l1 l2 : list Z) : kept (kept l1 ++ l2) = kept (l1 ++ l2).
Proof.
  destruct l2 as [|y l2].
  - rewrite !app_nil_r. destruct l1; reflexivity.
  - rewrite !kept_last. reflexivity.
Qed.

Lemma kept_held_port (st : state) : kept (held_port st) = held_port st.
Proof.
  unfold held_port, session_of. destruct (fd st =? -1); reflexivity.
Qed.

(** An option that comes back leaves open what the shell holds, the port
    it opened if it opened one; the help touches no port. *)
Lemma step_live (st : state) (o : opt) (w : world) :
  match value (step st o w) with
  | Ret st' =>
      live (held_port st) (trace (step st o w)) = held_port st' /\
      held_port st'
      = kept (held_port st ++ opened_ports (trace (step st o w)))
  | Exit s =>
      s = 0 ->
      (forall l, live l (trace (step st o w)) = l) /\
      opened_ports (trace (step st o w)) = []
  end.
Proof.
  destruct st as [f sp br q e t bb].
  unfold held_port, session_of. simpl.
  destruct (f =? -1) eqn:Hf;
    destruct o; destruct q; shell; rewrite ?Hf; simpl; tests;
    repeat (live_loop; simpl; tests); try congruence;
    try (intro H0; try discriminate H0; split; reflexivity);
    unfold opened_ports in *;
    repeat (simpl; rewrite ?live_app, ?flat_map_app;
            repeat match goal with
                   | H : forall l, live l _ = l |- _ => rewrite !H
                   | H : flat_map _ _ = [] |- _ => rewrite !H
                   end;
            known_tests);
    split; reflexivity.
Qed.

Lemma getopt_loop_live (opts : list opt) (st : state) (w : world) :
  (forall s, status (getopt_loop opts st w) = Some s -> s = 0) ->
  live (held_port st) (trace (getopt_loop opts st w))
  = kept (held_port st ++ opened_ports (trace (getopt_loop opts st w))).
Proof.
  revert st w.
  induction opts as [|o rest IH]; intros st w Hs; simpl.
  - rewrite app_nil_r, kept_held_port. reflexivity.
  - simpl in Hs. rewrite status_bind in Hs. rewrite trace_bind.
    pose proof (step_live st o w) as Hstep.
    destruct (value (step st o w)) as [st'|s].
    + destruct Hstep as [Hl Hk].
      rewrite live_app, Hl, (IH _ _ Hs), Hk, kept_app.
      unfold opened_ports. rewrite flat_map_app, app_assoc. reflexivity.
    + destruct (Hstep (Hs s eq_refl)) as [Hl Hp].
      rewrite Hl, Hp, app_nil_r, kept_held_port. reflexivity.
Qed.

(** X16: the shell never closes the port it ends with.  On a run that
    ends with status 0 the handles still open at the exit are exactly the
    last one [serialport_init] opened, if it opened any: of the ports of a
    run only those replaced by a later [-p] are closed, and the last is left
    open for the system to close. *)
Theorem last_port_is_left_open
        (argc : Z) (opts : list opt) (junk : ascii) (w : world)
        (Hok : status (main argc opts junk w) = Some 0) :
  live [] (trace (main argc opts junk w))
  = kept (opened_ports (trace (main argc opts junk w))).
Proof.
  revert Hok. unfold main. destruct (argc =? 1); simpl; [reflexivity|].
  rewrite status_bind, trace_bind. simpl.
  rewrite status_bind, trace_bind.
  pose proof (@getopt_loop_live opts (initial junk) w) as H.
  change (held_port (initial junk)) with (@nil Z) in H. simpl app in H.
  unfold status in H.
  destruct (value (getopt_loop opts (initial junk) w)) as [st'|s]; simpl.
  - intros _. rewrite app_nil_r. apply H. discriminate.
  - intro Hs. apply H. intros s0 H0. congruence.
Qed.

Lemma last_port_is_left_open_witness :
  live [] (trace (main 5 [Op "/dev/ttyUSB0"; Op "/dev/ttyUSB1"] zero
                       (mkWorld [3; 4] [] [] [] [] [] [] [] [])))
  = [4].
Proof.
  apply (@last_port_is_left_open
           5 [Op "/dev/ttyUSB0"; Op "/dev/ttyUSB1"] zero
           (mkWorld [3; 4] [] [] [] [] [] [] [] [])).
  reflexivity.
Defined.
